(** * Vortex utilities: Steam stub, [lazy], state backups and the table's
      derived-value cache.

    A shallow embedding of
    - the default Steam implementation and its two error classes,
    - the [lazy] memoisation helper,
    - [src/util/stateBackup.ts] (createStateBackupSync, createFullBackup,
      getListOfBackups, deleteBackups),
    - the parts of the [SuperTable] component that recompute derived cell
      values, order the rows, select them and decide which are rendered.

    Promises are modelled by their settled outcome, mutable module and
    component fields by explicit state passing, plain objects used as
    dictionaries by finite maps of their own properties together with the
    members they inherit. *)

From Stdlib Require Import Ascii.
From stdpp Require Import base option list strings pretty gmap sorting.

Set Warnings "-register-all".


(** ** Promises *)

(** A settled bluebird promise: either resolved with a value or rejected
    with a reason. *)
Inductive Promise (E A : Type) : Type :=
| Resolved (a : A)
| Rejected (e : E).
Arguments Resolved {E A} a.
Arguments Rejected {E A} e.

Definition is_resolved {E A} (p : Promise E A) : bool :=
  match p with Resolved _ => true | Rejected _ => false end.

(** [p.catch(handler)]: a rejection is replaced by the handler's value. *)
Definition promise_catch {E A} (p : Promise E A) (handler : E -> A) : Promise E A :=
  match p with
  | Resolved a => Resolved a
  | Rejected e => Resolved (handler e)
  end.

(** [p.then(f)] for a callback returning a plain value. *)
Definition promise_then {E A B} (p : Promise E A) (f : A -> B) : Promise E B :=
  match p with
  | Resolved a => Resolved (f a)
  | Rejected e => Rejected e
  end.

(** ** The Steam module *)

Module Steam.

Record ISteamEntry := {
  appid : string;
  name : string;
  entryGamePath : string;
  lastUser : string;
  lastUpdated : Z;
}.

Record ISteamExec := {
  steamPath : string;
  arguments : list string;
}.

(** [class GamePathNotMatched extends Error]: the fields of [Error]
    ([message], [name]) and the two private members. *)
Record GamePathNotMatched := {
  gpnm_message : string;
  gpnm_name : string;
  mGamePath : string;
  mEntryPaths : list string;
}.

(** The constructor. *)
Definition new_GamePathNotMatched (gamePath : string) (entries : list string)
  : GamePathNotMatched :=
  {| gpnm_message := "Unable to find matching steam path - "
                     +:+ "Please include your latest Vortex log file when reporting this issue!";
     gpnm_name := "GamePathNotMatched";
     mGamePath := gamePath;
     mEntryPaths := entries |}.

(** [get gamePath()] and [get steamEntryPaths()]. *)
Definition gamePath (e : GamePathNotMatched) : string := mGamePath e.
Definition steamEntryPaths (e : GamePathNotMatched) : list string := mEntryPaths e.

(** [class GameNotFound extends Error]. *)
Record GameNotFound := {
  gnf_message : string;
  gnf_name : string;
  mSearch : string;
}.

Definition new_GameNotFound (search_term : string) : GameNotFound :=
  {| gnf_message := "Not in Steam library";
     gnf_name := "GameNotFound";
     mSearch := search_term |}.

(** [get search()]. *)
Definition search (e : GameNotFound) : string := mSearch e.

(** The two failure kinds of the module. *)
Inductive SteamError :=
| EGamePathNotMatched (e : GamePathNotMatched)
| EGameNotFound (e : GameNotFound).

Definition is_not_found (e : SteamError) : bool :=
  match e with EGameNotFound _ => true | EGamePathNotMatched _ => false end.

(** [appId: string | string[]] *)
Inductive AppIdArg :=
| OneAppId (a : string)
| ManyAppIds (l : list string).

(** [interface ISteam] *)
Class ISteam := {
  findByName : string -> Promise SteamError ISteamEntry;
  findByAppId : AppIdArg -> Promise SteamError ISteamEntry;
  allGames : Promise SteamError (list ISteamEntry);
  getGameExecutionInfo :
    string -> option Z -> option (list string) -> Promise SteamError ISteamExec;
}.

(** The default export. *)
Definition default : ISteam := {|
  findByName namePattern := Rejected (EGameNotFound (new_GameNotFound namePattern));
  findByAppId appId := Rejected (EGameNotFound (new_GameNotFound ""));
  allGames := Resolved [];
  getGameExecutionInfo gamePath appId args :=
    Rejected (EGameNotFound (new_GameNotFound gamePath));
|}.

End Steam.

(** ** [lazy] *)

Module Lazy.
Section Lazy.
(** [T] without its [undefined] inhabitant: a JavaScript value of type
    [T] is an [option T], [None] standing for [undefined].  The thunk may
    have effects on a world [W]. *)
Context {T W : Type}.

Definition Thunk := W -> option T * W.

(** The closure returned by [lazy(func)]: the captured variable [value]
    and, as instrumentation, how often [func] has been invoked. *)
Record Cell := {
  value : option T;
  invocations : nat;
}.

(** [let value: T;] *)
Definition lazy : Cell := {| value := None; invocations := 0 |}.

(** One call of the returned function. *)
Definition call (func : Thunk) (c : Cell) (w : W) : option T * Cell * W :=
  match value c with
  | None =>
      let '(v, w') := func w in
      (v, {| value := v; invocations := S (invocations c) |}, w')
  | Some v => (Some v, c, w)
  end.

(** [n] calls in a row; the results are listed in call order. *)
Fixpoint calls (func : Thunk) (n : nat) (c : Cell) (w : W)
  : list (option T) * Cell * W :=
  match n with
  | O => ([], c, w)
  | S n' =>
      let '(r, c1, w1) := call func c w in
      let '(rs, c2, w2) := calls func n' c1 w1 in
      (r :: rs, c2, w2)
  end.

End Lazy.
End Lazy.

(** [Promise.map(items, mapper)] without a concurrency limit: the mapper is
    started for every item, whatever the outcome of the others; the result
    resolves to the list of values when every mapped promise resolves and
    rejects with the first rejection otherwise. *)
Fixpoint promise_map {E A B W} (mapper : A -> W -> Promise E B * W)
    (items : list A) (w : W) : Promise E (list B) * W :=
  match items with
  | [] => (Resolved [], w)
  | x :: rest =>
      let '(r, w1) := mapper x w in
      let '(rs, w2) := promise_map mapper rest w1 in
      (match r, rs with
       | Rejected e, _ => Rejected e
       | Resolved _, Rejected e => Rejected e
       | Resolved b, Resolved bs => Resolved (b :: bs)
       end, w2)
  end.

(** ** Plain objects used as dictionaries *)

Module Js.

(** The names every plain object answers to without having them as own
    properties: the members of [Object.prototype]. *)
Definition Object_prototype : list string :=
  ["constructor"; "hasOwnProperty"; "isPrototypeOf"; "propertyIsEnumerable";
   "toLocaleString"; "toString"; "valueOf";
   "__defineGetter__"; "__defineSetter__"; "__lookupGetter__"; "__lookupSetter__";
   "__proto__"].

Definition inherited (key : string) : bool := bool_decide (key ∈ Object_prototype).

(** What [obj[key]] finds. *)
Inductive Member (A : Type) : Type :=
| Own (a : A)
| Inherited
| Undefined.
Arguments Own {A} a.
Arguments Inherited {A}.
Arguments Undefined {A}.

(** [obj[key]] for the object whose own properties are [obj]: the own
    property, else the inherited member of that name, else [undefined]. *)
Definition get {A} (obj : gmap string A) (key : string) : Member A :=
  match obj !! key with
  | Some a => Own a
  | None => if inherited key then Inherited else Undefined
  end.

(** [obj[key] === undefined] *)
Definition is_undefined {A} (obj : gmap string A) (key : string) : bool :=
  match get obj key with
  | Undefined => true
  | _ => false
  end.

(** How a template string prints an inherited member: the accessor
    [__proto__] yields [Object.prototype] itself, the other names a native
    function, [constructor] the function [Object]. *)
Definition member_text (key : string) : string :=
  if decide (key = "__proto__") then "[object Object]"
  else "function " +:+ (if decide (key = "constructor") then "Object" else key)
       +:+ "() { [native code] }".

End Js.

(** ** State backups ([src/util/stateBackup.ts]) *)

Module Backup.

(** JavaScript values as far as [JSON] and object spread see them. *)
Inductive JsVal :=
| VUndefined
| VNull
| VBool (b : bool)
| VNum (n : Z)
| VStr (s : string)
| VArr (l : list JsVal)
| VObj (m : gmap string JsVal).

(** The own enumerable properties copied by [...v]: the members of an
    object, the indexed elements of an array, the indexed characters of a
    string, and nothing for the other primitives. *)
Definition indexed (l : list JsVal) : gmap string JsVal :=
  list_to_map (imap (fun i v => (pretty i, v)) l).

Definition own_props (v : JsVal) : gmap string JsVal :=
  match v with
  | VObj m => m
  | VArr l => indexed l
  | VStr s => indexed ((fun c => VStr (String c "")) <$> String.list_ascii_of_string s)
  | _ => ∅
  end.

(** [{ ...a, ...b }]: the properties of [b] are written after those of
    [a] and overwrite them. *)
Definition spread2 (a b : JsVal) : JsVal := VObj (own_props b ∪ own_props a).

(** In-memory file store: contents by full path, and the directories
    that exist.  Creating a directory and writing a file always succeed
    in it; reading fails on a path that holds no file. *)
Record FS := {
  files : gmap string string;
  dirs : gset string;
}.

Inductive FsError :=
| ENOENT (path : string)
| SyntaxError (text : string)
| EOther (code : string) (path : string).

(** Requests made to the [fs] module, in program order. *)
Inductive FsCall :=
| ReadFile (path : string)
| EnsureDir (path : string)
| WriteFile (path : string) (content : string)
| ReadDir (path : string)
| Remove (path : string).

(** The paths written, in order. *)
Definition writes (calls : list FsCall) : list string :=
  omap (fun c => match c with WriteFile path _ => Some path | _ => None end) calls.

Record LogEntry := {
  level : string;
  message : string;
  meta : FsError;
}.

(** The module's state: the [backups] registry (id to creation time),
    the file store, the log, and the journal of file-system requests. *)
Record World := {
  backups : gmap string Z;
  fs : FS;
  logged : list LogEntry;
  journal : list FsCall;
}.

Definition set_backups (f : gmap string Z -> gmap string Z) (w : World) : World :=
  {| backups := f (backups w); fs := fs w; logged := logged w; journal := journal w |}.
Definition set_fs (f : FS -> FS) (w : World) : World :=
  {| backups := backups w; fs := f (fs w); logged := logged w; journal := journal w |}.
Definition record_call (c : FsCall) (w : World) : World :=
  {| backups := backups w; fs := fs w; logged := logged w; journal := journal w ++ [c] |}.

(** Modelled from the spec: [log(level, message, meta)] of the missing
    [src/util/log.ts], which only records the entry. *)
Definition log (lvl msg : string) (err : FsError) (w : World) : World :=
  {| backups := backups w; fs := fs w;
     logged := logged w ++ [{| level := lvl; message := msg; meta := err |}];
     journal := journal w |}.

(** Modelled from the spec: [src/util/fs.ts] is missing from the sources;
    the spec describes the backup module as a thin wrapper over file
    read/write calls, so [readFileSync] and the four functions after it are
    the plain file operations on the in-memory store. *)
Definition readFileSync (path : string) (w : World) : (FsError + string) * World :=
  let w' := record_call (ReadFile path) w in
  match files (fs w) !! path with
  | Some content => (inr content, w')
  | None => (inl (ENOENT path), w')
  end.

(** Modelled from the spec: [fs.ensureDirSync] of the missing [src/util/fs.ts]. *)
Definition ensureDirSync (path : string) (w : World) : World :=
  set_fs (fun s => {| files := files s; dirs := {[path]} ∪ dirs s |})
         (record_call (EnsureDir path) w).

(** Modelled from the spec: [fs.writeFileSync] of the missing [src/util/fs.ts]. *)
Definition writeFileSync (path content : string) (w : World) : World :=
  set_fs (fun s => {| files := <[path := content]> (files s); dirs := dirs s |})
         (record_call (WriteFile path content) w).

(** Modelled from the spec: [fs.ensureDirAsync] of the missing [src/util/fs.ts]. *)
Definition ensureDirAsync (path : string) (w : World) : Promise FsError () * World :=
  (Resolved (), ensureDirSync path w).

(** Modelled from the spec: [fs.writeFileAsync] of the missing [src/util/fs.ts]. *)
Definition writeFileAsync (path content : string) (w : World) : Promise FsError () * World :=
  (Resolved (), writeFileSync path content w).

(** [makeName]: the template string prints the number in decimal. *)
Definition makeName (time : Z) : string := "backup_" +:+ pretty time +:+ ".json".

(** [makeName(backups[backupId])] when [backups[backupId]] is not a time
    but the member that [backups] inherits under the name [backupId]: the
    template string prints that member. *)
Definition makeName_member (backupId : string) : string :=
  "backup_" +:+ Js.member_text backupId +:+ ".json".

(** What Node, Electron and the operating system provide.  Directory
    listing and removal are left to the platform: a removal may fail for
    any reason and change the store in any way. *)
Class Platform := {
  path_join : string -> string -> string;
  path_extname : string -> string;
  temp : string;                       (* app.getPath('temp') *)
  JSON_parse : string -> option JsVal; (* None: throws SyntaxError *)
  JSON_stringify : JsVal -> string;
  readdir : string -> FS -> Promise FsError (list string);
  remove : string -> FS -> Promise FsError () * FS;
}.

Section WithPlatform.
Context `{Platform}.

(** [fs.readdirAsync] and [fs.removeAsync]: the platform's operation,
    entered in the journal. *)
Definition readdirAsync (path : string) (w : World)
  : Promise FsError (list string) * World :=
  (readdir path (fs w), record_call (ReadDir path) w).

Definition removeAsync (path : string) (w : World) : Promise FsError () * World :=
  let w' := record_call (Remove path) w in
  let '(r, s) := remove path (fs w') in
  (r, set_fs (fun _ => s) w').

(** [backupPath = lazy(() => path.join(app.getPath('temp'), 'state_backups'))];
    the thunk is pure and never yields [undefined], so every call
    returns this value. *)
Definition backupPath : string := path_join temp "state_backups".

(** The [try] block of [createStateBackupSync]: read the file and parse
    it; either step may throw. *)
Definition read_existing (path : string) (w : World) : (FsError + JsVal) * World :=
  match readFileSync path w with
  | (inl err, w') => (inl err, w')
  | (inr oldData, w') =>
      match JSON_parse oldData with
      | Some v => (inr v, w')
      | None => (inl (SyntaxError oldData), w')
      end
  end.

(** [createStateBackupSync(backupId, data)].  [fresh] and [now] are the
    values [shortid()] and [Date.now()] return if they are called.  The
    registry is a plain object: [backups[backupId] === undefined] is false
    for a registered id and also for an id that names an inherited member,
    which is then taken as registered; [registered] pairs the id with
    [makeName(backups[backupId])].  The assignment [backups[fresh] = now]
    creates the entry (for every id but [__proto__], which [shortid()] is
    taken never to return). *)
Definition createStateBackupSync (fresh : string) (now : Z)
    (backupId : option string) (data : JsVal) (w : World) : string * World :=
  let registered :=
    id ← backupId;
    match Js.get (backups w) id with
    | Js.Own time => Some (id, makeName time)
    | Js.Inherited => Some (id, makeName_member id)
    | Js.Undefined => None
    end in
  let '(id, name, existingData, w1) :=
    match registered with
    | None => (fresh, makeName now, VObj ∅, set_backups (insert fresh now) w)
    | Some (id, name) =>
        match read_existing (path_join backupPath name) w with
        | (inr v, w') => (id, name, v, w')
        | (inl err, w') =>
            (id, name, VObj ∅, log "warn" "failed to read existing backup data" err w')
        end
    end in
  let backupData := spread2 existingData data in
  let w2 := ensureDirSync backupPath w1 in
  let w3 := writeFileSync (path_join backupPath name)
                          (JSON_stringify backupData) w2 in
  (id, w3).

(** [createFullBackup(state)] *)
Definition createFullBackup (fresh : string) (now : Z) (state : JsVal) (w : World)
  : Promise FsError string * World :=
  let w0 := set_backups (insert fresh now) w in
  match ensureDirAsync backupPath w0 with
  | (Rejected e, w1) => (Rejected e, w1)
  | (Resolved _, w1) =>
      match writeFileAsync (path_join backupPath (makeName now))
                           (JSON_stringify state) w1 with
      | (Rejected e, w2) => (Rejected e, w2)
      | (Resolved _, w2) => (Resolved fresh, w2)
      end
  end.

Definition startsWith (s pre : string) : bool :=
  bool_decide (String.substring 0 (String.length pre) s = pre).

(** [getListOfBackups()] *)
Definition getListOfBackups (w : World) : Promise FsError (list string) * World :=
  match ensureDirAsync backupPath w with
  | (Rejected e, w1) => (Rejected e, w1)
  | (Resolved _, w1) =>
      let '(r, w2) := readdirAsync backupPath w1 in
      (promise_then r
         (filter (fun fileName =>
                    startsWith fileName "backup" = true
                    /\ path_extname fileName = ".json")), w2)
  end.

(** The mapper of [deleteBackups]:
    [backupName => fs.removeAsync(...).catch(() => undefined)]. *)
Definition remove_quietly (backupName : string) (w : World)
  : Promise FsError () * World :=
  let '(p, w1) := removeAsync (path_join backupPath backupName) w in
  (promise_catch p (fun _ => ()), w1).

(** [deleteBackups(files)] *)
Definition deleteBackups (files : list string) (w : World)
  : Promise FsError () * World :=
  let '(r, w') := promise_map remove_quietly files w in
  (promise_then r (fun _ => ()), w').

End WithPlatform.

End Backup.

(** ** The table component ([SuperTable]) *)

Module Table.

(** Cell values.  Structural equality on [V] is lodash's deep comparison
    [_.isEqual]; [js_lt] and [js_strict_eq] are the operators [<] and
    [===]; [js_string] injects a string (the [__id] member of a row).
    [js_member name] is the member a plain object inherits under [name]
    and [js_member_get name key] is the property [key] of that member: what
    a lookup reads where the cache has no own entry. *)
Class JsValue (V : Type) := {
  undefined : V;
  js_string : string -> V;
  js_lt : V -> V -> bool;
  js_strict_eq : V -> V -> bool;
  js_member : string -> V;
  js_member_get : string -> string -> V;
  js_value_eq_dec :: EqDecision V;
}.

Definition isEqual `{JsValue V} (a b : V) : bool := bool_decide (a = b).

(** A row's source data is an object: [===] compares the reference;
    [row_raw] is what [calc] and [sortFuncRaw] read when they are handed
    the row: the content of the object and, for a volatile column, the
    state outside the row that its [calc] consults at that moment.  The
    same reference with another [row_raw] is a row whose object was
    mutated in place or whose surroundings have changed. *)
Record RowData (R : Type) := {
  row_ref : nat;
  row_raw : R;
}.
Arguments row_ref {R} _.
Arguments row_raw {R} _.

(** [a === b] for two possibly undefined row objects. *)
Definition same_row {R} (a b : option (RowData R)) : bool :=
  match a, b with
  | None, None => true
  | Some x, Some y => bool_decide (row_ref x = row_ref y)
  | _, _ => false
  end.

Inductive SortDirection := none | asc | desc.

#[export] Instance SortDirection_eq_dec : EqDecision SortDirection.
Proof. solve_decision. Defined.

Record IAttributeState := {
  enabled : bool;
  sortDirection : option SortDirection;
}.

(** The members of [ITableAttribute] used here.  [calc] closes over the
    translation function [t]; its result is the value that
    [Promise.resolve(attribute.calc(...))] resolves with, for a [calc]
    that neither throws nor rejects. *)
Record ITableAttribute (R V : Type) := {
  id : string;
  isVolatile : bool;
  calc : R -> V;
  sortFunc : option (V -> V -> string -> Z);
  sortFuncRaw : option (option (RowData R) -> option (RowData R) -> string -> Z);
}.
Arguments id {R V} _.
Arguments isVolatile {R V} _.
Arguments calc {R V} _.
Arguments sortFunc {R V} _.
Arguments sortFuncRaw {R V} _.

(** [{ [rowId: string]: any }], in key order. *)
Definition Data (R : Type) := list (string * RowData R).

Definition keys {R} (data : Data R) : list string := data.*1.

(** [data[rowId]] *)
Fixpoint data_get {R} (rowId : string) (data : Data R) : option (RowData R) :=
  match data with
  | [] => None
  | (k, row) :: rest => if decide (k = rowId) then Some row else data_get rowId rest
  end.

(** [data[rowId] === undefined] *)
Definition data_is_undefined {R} (rowId : string) (data : Data R) : bool :=
  match data_get rowId data with
  | Some _ => false
  | None => negb (Js.inherited rowId)
  end.

(** The members of [IProps] used here; [props_ref] is the identity of the
    props object. *)
Record IProps (R V : Type) := {
  props_ref : nat;
  data : Data R;
  objects : list (ITableAttribute R V);
}.
Arguments props_ref {R V} _.
Arguments data {R V} _.
Arguments objects {R V} _.

(** [a !== b] negated, for two possibly undefined props objects. *)
Definition same_props {R V} (a b : option (IProps R V)) : bool :=
  match a, b with
  | None, None => true
  | Some x, Some y => bool_decide (props_ref x = props_ref y)
  | _, _ => false
  end.

(** [ILookupCalculated]: row id to attribute id to value. *)
Abbreviation ILookupCalculated V := (gmap string (gmap string V)).

(** [Array.prototype.sort(compare)] is the engine's. *)
Class Engine := {
  array_sort : forall A : Type, (A -> A -> Z) -> list A -> list A;
}.

(** A comparator that orders the members of [l] consistently: swapping
    the arguments flips the sign, and "not after" is transitive. *)
Definition consistent_on {A} (compare : A -> A -> Z) (l : list A) : Prop :=
  Forall (fun x =>
    Forall (fun y =>
      ((0 < compare x y)%Z <-> (compare y x < 0)%Z)
      /\ Forall (fun z =>
           (compare x y <= 0)%Z -> (compare y z <= 0)%Z -> (compare x z <= 0)%Z) l) l) l.

(** What the language standard asks of [sort] since its 2019 edition,
    for a comparator that is consistent on the elements: the result
    holds the same elements, in the comparator's order, and elements
    that compare equal keep the order they had.  With any other
    comparator the order is left to the engine, and nothing is asked. *)
Definition stable_sort `{Engine} : Prop :=
  forall (A : Type) (compare : A -> A -> Z) (l : list A),
    consistent_on compare l ->
    array_sort A compare l ≡ₚ l
    /\ StronglySorted (fun x y => (compare x y <= 0)%Z) (array_sort A compare l)
    /\ forall x, x ∈ l ->
         filter (fun y => compare x y = 0%Z) (array_sort A compare l)
         = filter (fun y => compare x y = 0%Z) l.

(** One such engine: sorting by insertion.  An element moves behind the
    elements it compares greater than ([compare > 0]) and stops at the
    first one it does not. *)
Fixpoint sort_insert {A} (compare : A -> A -> Z) (x : A) (l : list A) : list A :=
  match l with
  | [] => [x]
  | y :: rest =>
      if bool_decide (0 < compare x y)%Z
      then y :: sort_insert compare x rest
      else x :: y :: rest
  end.

Definition insertion_sort {A} (compare : A -> A -> Z) (l : list A) : list A :=
  foldr (sort_insert compare) [] l.

Definition insertion : Engine := {| array_sort := @insertion_sort |}.

Section WithValues.
Context {R V : Type} `{JsValue V}.

(** Modelled from the spec: [getSafe] of the missing
    [src/util/storeHelper.ts], here [getSafe(values, [rowId, attributeId],
    undefined)]: the cached cell of a row and an attribute, [undefined]
    when there is none.  It is also [values[rowId][attributeId]] when the
    row is present. *)
Definition getSafe (values : ILookupCalculated V) (rowId attributeId : string) : V :=
  default undefined (values !! rowId ≫= (.!! attributeId)).

(** *** Recomputation of the derived values *)

(** The test guarding [calc]:
    [!attribute.isVolatile && attribute.id !== forceUpdateId
     && oldState.data[rowId] === data[rowId]]. *)
Definition skips_calc (forceUpdateId : option string) (oldData : Data R)
    (rowId : string) (row : RowData R) (attribute : ITableAttribute R V) : bool :=
  negb (isVolatile attribute)
  && bool_decide (Some (id attribute) <> forceUpdateId)
  && same_row (data_get rowId oldData) (Some row).

(** What one run accumulates: the calls of [calc] made (row id,
    attribute id), the [changedColumns] set in insertion order,
    [newValues], and whether an [update] has thrown, which rejects the
    promise of the run. *)
Record Recalc := {
  calc_calls : list (string * string);
  changedColumns : list string;
  newValues : ILookupCalculated V;
  rejected : bool;
}.

Definition set_add (x : string) (l : list string) : list string :=
  if decide (x ∈ l) then l else l ++ [x].

(** The inner mapper, for one attribute of one row; [delta] is the
    row's pending change.  The assignment [delta[attribute.id] = newValue]
    creates the entry, for every attribute id but [__proto__], which is
    taken not to name an attribute. *)
Definition recalc_cell (forceUpdateId : option string) (oldData : Data R)
    (rowId : string) (row : RowData R)
    (acc : gmap string V * Recalc) (attribute : ITableAttribute R V)
  : gmap string V * Recalc :=
  let '(delta, st) := acc in
  if skips_calc forceUpdateId oldData rowId row attribute then acc
  else
    let newValue := calc attribute (row_raw row) in
    let calls := calc_calls st ++ [(rowId, id attribute)] in
    if isEqual newValue (getSafe (newValues st) rowId (id attribute)) then
      (delta, {| calc_calls := calls; changedColumns := changedColumns st;
                 newValues := newValues st; rejected := rejected st |})
    else
      (<[id attribute := newValue]> delta,
       {| calc_calls := calls;
          changedColumns := set_add (id attribute) (changedColumns st);
          newValues := newValues st; rejected := rejected st |}).

(** The [.then] after the inner map: merge a non-empty [delta].  A row
    without an entry gets [delta] as its entry; otherwise [update] merges
    [delta] into [newValues[rowId]], and throws when that is not an own
    entry but a function that [newValues] inherits ([None]).  Under
    [__proto__] the prototype itself is found, not a function; that name
    is taken not to be a row id. *)
Definition merge_delta (rowId : string) (delta : gmap string V)
    (values : ILookupCalculated V) : option (ILookupCalculated V) :=
  if decide (delta = ∅) then Some values
  else
    let delta' := <["__id" := js_string rowId]> delta in
    match Js.get values rowId with
    | Js.Undefined => Some (<[rowId := delta']> values)
    | Js.Own old => Some (<[rowId := delta' ∪ old]> values)
    | Js.Inherited => None
    end.

(** The outer mapper, for one row.  A throwing [update] rejects the run
    and leaves [newValues] as it was; the rows after it are still
    handled. *)
Definition recalc_row (forceUpdateId : option string) (oldData : Data R)
    (attributes : list (ITableAttribute R V))
    (st : Recalc) (entry : string * RowData R) : Recalc :=
  let '(rowId, row) := entry in
  let '(delta, st') :=
    foldl (recalc_cell forceUpdateId oldData rowId row) (∅, st) attributes in
  match merge_delta rowId delta (newValues st') with
  | Some values =>
      {| calc_calls := calc_calls st'; changedColumns := changedColumns st';
         newValues := values; rejected := rejected st' |}
  | None =>
      {| calc_calls := calc_calls st'; changedColumns := changedColumns st';
         newValues := newValues st'; rejected := true |}
  end.

(** Rows of the previous update that are gone: [delete newValues[rowId]]
    where [data[rowId] === undefined]. *)
Definition drop_removed (oldData newData : Data R) (values : ILookupCalculated V)
  : ILookupCalculated V :=
  foldl (fun vs rowId =>
           if data_is_undefined rowId newData then delete rowId vs else vs)
        values (keys oldData).

(** The whole recomputation of [updateCalculatedValues]:
    [oldState = this.mLastUpdateState || { data: {} }],
    [newValues = this.state.calculatedValues || {}].  The rows that are
    gone are dropped in a later link of the chain, which a rejected run
    does not reach. *)
Definition recalculate (lastUpdateState : option (IProps R V))
    (cached : option (ILookupCalculated V))
    (props : IProps R V) (forceUpdateId : option string) : Recalc :=
  let oldData := from_option data [] lastUpdateState in
  let start := {| calc_calls := []; changedColumns := [];
                  newValues := default ∅ cached; rejected := false |} in
  let st := foldl (recalc_row forceUpdateId oldData (objects props)) start (data props) in
  {| calc_calls := calc_calls st; changedColumns := changedColumns st;
     newValues := if rejected st then newValues st
                  else drop_removed oldData (data props) (newValues st);
     rejected := rejected st |}.

(** The same three steps for a run in which no [update] throws, spelled
    out for the proofs. *)
Definition merged (rowId : string) (delta : gmap string V)
    (values : ILookupCalculated V) : ILookupCalculated V :=
  if decide (delta = ∅) then values
  else
    let delta' := <["__id" := js_string rowId]> delta in
    match values !! rowId with
    | None => <[rowId := delta']> values
    | Some old => <[rowId := delta' ∪ old]> values
    end.

Definition row_done (forceUpdateId : option string) (oldData : Data R)
    (attributes : list (ITableAttribute R V))
    (st : Recalc) (entry : string * RowData R) : Recalc :=
  let '(rowId, row) := entry in
  let '(delta, st') :=
    foldl (recalc_cell forceUpdateId oldData rowId row) (∅, st) attributes in
  {| calc_calls := calc_calls st'; changedColumns := changedColumns st';
     newValues := merged rowId delta (newValues st'); rejected := rejected st' |}.

Definition completed (lastUpdateState : option (IProps R V))
    (cached : option (ILookupCalculated V))
    (props : IProps R V) (forceUpdateId : option string) : Recalc :=
  let oldData := from_option data [] lastUpdateState in
  let start := {| calc_calls := []; changedColumns := [];
                  newValues := default ∅ cached; rejected := false |} in
  let st := foldl (row_done forceUpdateId oldData (objects props)) start (data props) in
  {| calc_calls := calc_calls st; changedColumns := changedColumns st;
     newValues := drop_removed oldData (data props) (newValues st);
     rejected := rejected st |}.

(** The cells of one row that a run rewrites, spelled out for the proofs:
    [calc] ran and its value is not the one found in the row's cached
    entry [old]. *)
Definition changed_cell (forceUpdateId : option string) (oldData : Data R)
    (old : option (gmap string V)) (rowId : string) (row : RowData R)
    (attribute : ITableAttribute R V) : bool :=
  negb (skips_calc forceUpdateId oldData rowId row attribute)
  && negb (isEqual (calc attribute (row_raw row))
                   (default undefined (old ≫= (.!! id attribute)))).

Definition row_delta (forceUpdateId : option string) (oldData : Data R)
    (old : option (gmap string V)) (rowId : string) (row : RowData R)
    (attributes : list (ITableAttribute R V)) (delta : gmap string V) : gmap string V :=
  foldl (fun d a =>
           if changed_cell forceUpdateId oldData old rowId row a
           then <[id a := calc a (row_raw row)]> d else d)
        delta attributes.

(** The calls of [calc] a run is expected to make: row by row, the
    attributes that are not skipped. *)
Definition expected_calls (forceUpdateId : option string) (oldData : Data R)
    (attributes : list (ITableAttribute R V)) (data : Data R) : list (string * string) :=
  entry ← data;
  (fun a => (entry.1, id a))
    <$> filter (fun a => skips_calc forceUpdateId oldData entry.1 entry.2 a = false)
               attributes.

(** Following the spec's words, to be compared with [recalculate]: for
    every row and every attribute, [calc] is not invoked and the cached
    value is kept when the attribute is not volatile, is not the forced
    column and the row's data object is the one of the previous completed
    update; otherwise [calc] is invoked, and the cached value is replaced,
    by the new value, when that differs from the cached one, and kept
    when it does not. *)
Definition memoised_per_cell (lastUpdateState : option (IProps R V))
    (cached : option (ILookupCalculated V))
    (props : IProps R V) (forceUpdateId : option string) (out : Recalc) : Prop :=
  forall rowId row attribute,
    (rowId, row) ∈ data props -> attribute ∈ objects props ->
    let before := default ∅ cached !! rowId ≫= (.!! id attribute) in
    let after := newValues out !! rowId ≫= (.!! id attribute) in
    if skips_calc forceUpdateId (from_option data [] lastUpdateState) rowId row attribute
    then ((rowId, id attribute) ∉ calc_calls out) /\ after = before
    else ((rowId, id attribute) ∈ calc_calls out)
         /\ after = if isEqual (calc attribute (row_raw row))
                               (getSafe (default ∅ cached) rowId (id attribute))
                    then before else Some (calc attribute (row_raw row)).

(** *** The in-flight guard *)

(** A started recomputation whose promise chain has not settled yet:
    the captured [props] and [forceUpdateId] and what it computes. *)
Record Run := {
  run_props : IProps R V;
  run_force : option string;
  run_result : Recalc;
}.

(** The fields of the component that [updateCalculatedValues] reads and
    writes; [started] lists the recomputations begun so far. *)
Record Component := {
  mLastUpdateState : option (IProps R V);
  mNextUpdateState : option (IProps R V);
  mUpdateInProgress : bool;
  calculatedValues : option (ILookupCalculated V);
  inflight : option Run;
  started : list (IProps R V * option string);
}.

(** The state after the constructor's field initialisers. *)
Definition initial : Component :=
  {| mLastUpdateState := None; mNextUpdateState := None;
     mUpdateInProgress := false; calculatedValues := None;
     inflight := None; started := [] |}.

(** What a call hands back: a promise already resolved with a list of
    columns, or the pending promise of the run it started. *)
Inductive Returned :=
| ResolvedNow (columns : list string)
| Pending.

(** [updateCalculatedValues(props, forceUpdateId)] up to the point where
    it returns. *)
Definition updateCalculatedValues (props : IProps R V)
    (forceUpdateId : option string) (c : Component) : Returned * Component :=
  if mUpdateInProgress c then
    (ResolvedNow [],
     {| mLastUpdateState := mLastUpdateState c; mNextUpdateState := Some props;
        mUpdateInProgress := true; calculatedValues := calculatedValues c;
        inflight := inflight c; started := started c |})
  else
    (Pending,
     {| mLastUpdateState := mLastUpdateState c; mNextUpdateState := Some props;
        mUpdateInProgress := true; calculatedValues := calculatedValues c;
        inflight :=
          Some {| run_props := props; run_force := forceUpdateId;
                  run_result := recalculate (mLastUpdateState c) (calculatedValues c)
                                            props forceUpdateId |};
        started := started c ++ [(props, forceUpdateId)] |}).

(** The end of the promise chain of an in-flight run that was not
    rejected: the cache is stored, the guard is released, and a queued
    update starts the next run.  The result is the value the chain
    resolves with, if it ends here. *)
Definition settle (c : Component) : option (list string) * Component :=
  match inflight c with
  | None => (None, c)
  | Some run =>
      let c1 :=
        {| mLastUpdateState := Some (run_props run);
           mNextUpdateState := mNextUpdateState c;
           mUpdateInProgress := false;
           calculatedValues := Some (newValues (run_result run));
           inflight := None; started := started c |} in
      if same_props (mNextUpdateState c1) (mLastUpdateState c1) then
        (Some (changedColumns (run_result run)), c1)
      else
        match mNextUpdateState c1 with
        | Some next => (None, (updateCalculatedValues next None c1).2)
        | None => (None, c1)
        end
  end.

(** The [.catch] of the chain, reached when the run was rejected: the
    guard is released and the error is passed on. *)
Definition settle_failed (c : Component) : Component :=
  {| mLastUpdateState := mLastUpdateState c; mNextUpdateState := mNextUpdateState c;
     mUpdateInProgress := false; calculatedValues := calculatedValues c;
     inflight := None; started := started c |}.

(** Calls made one after the other. *)
Definition update_all (calls : list (IProps R V * option string)) (c : Component)
  : Component :=
  foldl (fun c call => (updateCalculatedValues call.1 call.2 c).2) c calls.

(** *** Row order *)

(** [standardSort] *)
Definition standardSort (lhs rhs : V) : Z :=
  if js_lt lhs rhs then (-1)%Z
  else if js_strict_eq lhs rhs then 0%Z
  else 1%Z.

(** The attribute a sort is requested for: the first one whose state has
    a sort direction other than ['none']. *)
Definition is_sorted_by (attributeState : gmap string IAttributeState)
    (attribute : ITableAttribute R V) : bool :=
  match attributeState !! id attribute with
  | None => false
  | Some st =>
      match sortDirection st with
      | None => false
      | Some dir => bool_decide (dir <> none)
      end
  end.

Definition find_sortAttribute (attributeState : gmap string IAttributeState)
    (attributes : list (ITableAttribute R V)) : option (ITableAttribute R V) :=
  snd <$> list_find (fun a => is_sorted_by attributeState a = true) attributes.

(** [calculatedValues[rowId][attributeId]], read for the rows that are
    sorted, for which [calculatedValues[rowId]] is not undefined: the own
    cell, else what the row's entry inherits under the attribute's name;
    and for a row id that has no entry of its own but names an inherited
    member, the property of that member. *)
Definition cell (values : ILookupCalculated V) (rowId attributeId : string) : V :=
  match Js.get values rowId with
  | Js.Own row =>
      match Js.get row attributeId with
      | Js.Own v => v
      | Js.Inherited => js_member attributeId
      | Js.Undefined => undefined
      end
  | Js.Inherited => js_member_get rowId attributeId
  | Js.Undefined => undefined
  end.

(** [sortFunction]: the attribute's [sortFunc] on the calculated values,
    else its [sortFuncRaw] on the raw data, else [standardSort]. *)
Definition sortFunction (values : ILookupCalculated V) (data : Data R)
    (locale : string) (sortAttribute : ITableAttribute R V)
    (lhsId rhsId : string) : Z :=
  match sortFunc sortAttribute with
  | Some f =>
      f (cell values lhsId (id sortAttribute))
        (cell values rhsId (id sortAttribute)) locale
  | None =>
      match sortFuncRaw sortAttribute with
      | Some g => g (data_get lhsId data) (data_get rhsId data) locale
      | None =>
          standardSort (cell values lhsId (id sortAttribute))
                       (cell values rhsId (id sortAttribute))
      end
  end.

(** [undefCompare] *)
Definition undefCompare (values : ILookupCalculated V)
    (sortAttribute : ITableAttribute R V) (lhsId rhsId : string) : Z :=
  if bool_decide (cell values lhsId (id sortAttribute) <> undefined) then 1%Z
  else if bool_decide (cell values rhsId (id sortAttribute) <> undefined) then (-1)%Z
  else 0%Z.

(** The comparator handed to [sort]. *)
Definition row_compare (values : ILookupCalculated V) (data : Data R)
    (locale : string) (sortAttribute : ITableAttribute R V) (descending : bool)
    (lhsId rhsId : string) : Z :=
  let res :=
    if bool_decide (sortFuncRaw sortAttribute <> None)
       || (bool_decide (cell values lhsId (id sortAttribute) <> undefined)
           && bool_decide (cell values rhsId (id sortAttribute) <> undefined))
    then sortFunction values data locale sortAttribute lhsId rhsId
    else undefCompare values sortAttribute lhsId rhsId in
  if descending then (res * -1)%Z else res.

Definition is_descending (attributeState : gmap string IAttributeState)
    (sortAttribute : ITableAttribute R V) : bool :=
  bool_decide ((attributeState !! id sortAttribute) ≫= sortDirection = Some desc).

(** The ids that are sorted: the keys of the data for which
    [calculatedValues[key] !== undefined]. *)
Definition dataIds (values : ILookupCalculated V) (data : Data R) : list string :=
  filter (fun key => Js.is_undefined values key = false) (keys data).

(** [sortedRows(attributeState, attributes, data, locale)], with
    [this.state.calculatedValues] as [values]. *)
Definition sortedRows `{Engine} (values : ILookupCalculated V)
    (attributeState : gmap string IAttributeState)
    (attributes : list (ITableAttribute R V))
    (data : Data R) (locale : string) : list string :=
  match find_sortAttribute attributeState attributes with
  | None => filter (fun rowId => is_Some (data_get rowId data)) (keys data)
  | Some sortAttribute =>
      array_sort string
        (row_compare values data locale sortAttribute
                     (is_descending attributeState sortAttribute))
        (dataIds values data)
  end.

(** Following the spec's words, to be compared with [sortedRows]: rows
    that tie under the primary comparison appear in the order of a
    secondary comparator over the rows' raw data, the attribute's
    [sortFuncRaw]. *)
Definition ties_broken_by_raw (values : ILookupCalculated V) (data : Data R)
    (locale : string) (sortAttribute : ITableAttribute R V)
    (result : list string) : Prop :=
  forall secondary i j lhsId rhsId,
    sortFuncRaw sortAttribute = Some secondary ->
    i < j -> result !! i = Some lhsId -> result !! j = Some rhsId ->
    sortFunction values data locale sortAttribute lhsId rhsId = 0%Z ->
    (secondary (data_get lhsId data) (data_get rhsId data) locale <= 0)%Z.

End WithValues.

End Table.

(** ** The table component: row selection and hot keys *)

Module Selection.

(** Modelled from the spec: [IRowState] of the missing [src/types/IState.ts],
    the per-row flags "selected" and "highlighted"; either member may be
    absent. *)
Record IRowState := {
  selected : option bool;
  highlighted : option bool;
}.

#[global] Instance IRowState_eq_dec : EqDecision IRowState.
Proof. solve_decision. Defined.

(** [rowState[rowId].selected] read as a condition. *)
Definition is_selected (rows : gmap string IRowState) (rowId : string) : bool :=
  bool_decide (rows !! rowId ≫= selected = Some true).

(** The two specs the component hands to [update] for one row:
    [{ $set: row }] and [{ selected: { $set: b } }]. *)
Inductive RowCommand :=
| SetRow (row : IRowState)
| SetSelected (b : bool).

(** [{ $set: { selected: b } }] *)
Definition just_selected (b : bool) : RowCommand :=
  SetRow {| selected := Some b; highlighted := None |}.

(** A nested spec needs its target: [update] throws on
    [{ selected: ... }] for a row the target does not have.  Where the
    row's name is that of an inherited member, the nested spec gets that
    member for its target and [update] sets "selected" on it, outside the
    row states; the model has no new row states for that case either. *)
Definition command_applies (target : gmap string IRowState) (rowId : string)
    (cmd : RowCommand) : bool :=
  match cmd with
  | SetRow _ => true
  | SetSelected _ => bool_decide (is_Some (target !! rowId))
  end.

Definition run_command (cmd : option RowCommand) (row : option IRowState)
  : option IRowState :=
  match cmd with
  | None => row
  | Some (SetRow r) => Some r
  | Some (SetSelected b) =>
      (fun r => {| selected := Some b; highlighted := highlighted r |}) <$> row
  end.

(** The spec of one row, as the handlers choose it: the whole row state
    where [rows[key] === undefined], the nested spec where it is not. *)
Definition select_command {A} (rows : gmap string A) (key : string) (b : bool)
  : RowCommand :=
  if Js.is_undefined rows key then just_selected b else SetSelected b.

(** [update(target, spec)] of immutability-helper on the [rowState] member:
    the new map, or [None] when a nested spec finds no row state to work
    on. *)
Definition update_rowState (spec : gmap string RowCommand)
    (target : gmap string IRowState) : option (gmap string IRowState) :=
  if decide (map_Forall (fun k cmd => command_applies target k cmd = true) spec)
  then Some (merge run_command spec target)
  else None.

Section WithRest.
(** [Rest] stands for the members of the component state that selection
    does not touch (calculated values, delayed ids, visibility, actions). *)
Context {Rest : Type} `{EqDecision Rest}.

Record IComponentState := {
  lastSelected : option string;
  rowState : gmap string IRowState;
  sortedRows : option (list string);
  detailsOpen : bool;
  rest : Rest;
}.

#[global] Instance IComponentState_eq_dec : EqDecision IComponentState.
Proof. solve_decision. Defined.

(** [this.state], [this.mNextState], [this.mMounted] and
    [this.mLastSelectOnly]. *)
Record Component := {
  state : IComponentState;
  mNextState : IComponentState;
  mMounted : bool;
  mLastSelectOnly : Z;
}.

(** [updateState(newState, callback)].  [setState] is taken to have been
    applied when the handler that called it has returned; the callback
    only schedules the details pane and is left out. *)
Definition updateState (newState : IComponentState) (c : Component) : Component :=
  if decide (newState = state c) then c
  else {| state := if mMounted c then newState else state c;
          mNextState := newState;
          mMounted := mMounted c;
          mLastSelectOnly := mLastSelectOnly c |}.

Definition with_rows (rows : gmap string IRowState) (s : IComponentState)
  : IComponentState :=
  {| lastSelected := lastSelected s; rowState := rows; sortedRows := sortedRows s;
     detailsOpen := detailsOpen s; rest := rest s |}.

Definition with_lastSelected (rowId : option string) (s : IComponentState)
  : IComponentState :=
  {| lastSelected := rowId; rowState := rowState s; sortedRows := sortedRows s;
     detailsOpen := detailsOpen s; rest := rest s |}.

Definition with_detailsOpen (b : bool) (s : IComponentState) : IComponentState :=
  {| lastSelected := lastSelected s; rowState := rowState s; sortedRows := sortedRows s;
     detailsOpen := b; rest := rest s |}.

(** The spec that unselects rows: every row of [rows] for [selectOnly],
    the selected ones elsewhere. *)
Definition unselect_all (rows : gmap string IRowState) : gmap string RowCommand :=
  (fun _ => SetSelected false) <$> rows.

Definition unselect_selected (rows : gmap string IRowState) : gmap string RowCommand :=
  (fun _ => SetSelected false) <$> filter (fun kv => selected kv.2 = Some true) rows.

(** [selectOnly(rowId, click)]; [now] is what [Date.now()] returns.  An
    undefined [rowId] (from [selectRelative] on an empty table) is used as
    the key ["undefined"]. *)
Definition selectOnly (rowId : option string) (click : bool) (now : Z) (c : Component)
  : option Component :=
  let key := default "undefined" rowId in
  let spec :=
    <[key := select_command (rowState (state c)) key true]>
      (unselect_all (rowState (state c))) in
  rows ← update_rowState spec (rowState (mNextState c));
  if click && bool_decide (lastSelected (state c) = rowId)
     && bool_decide (now - mLastSelectOnly c < 500)%Z
  then
    Some (updateState
            (with_rows rows (with_detailsOpen (negb (detailsOpen (state c))) (mNextState c)))
            c)
  else
    let c' := {| state := state c; mNextState := mNextState c; mMounted := mMounted c;
                 mLastSelectOnly := if click then now else mLastSelectOnly c |} in
    Some (updateState (with_rows rows (with_lastSelected rowId (mNextState c))) c').

(** [selectToggle(rowId)] *)
Definition selectToggle (rowId : string) (c : Component) : option Component :=
  let wasSelected := rowState (state c) !! rowId ≫= selected in
  match wasSelected with
  | Some true =>
      rows ← update_rowState {[ rowId := SetSelected false ]} (rowState (mNextState c));
      Some (updateState (with_rows rows (mNextState c)) c)
  | _ =>
      let cmd := match wasSelected with
                 | None => just_selected true
                 | Some b => SetSelected (negb b)
                 end in
      rows ← update_rowState {[ rowId := cmd ]} (rowState (mNextState c));
      Some (updateState (with_rows rows (with_lastSelected (Some rowId) (mNextState c))) c)
  end.

(** [deselectAll()] *)
Definition deselectAll (c : Component) : option Component :=
  rows ← update_rowState (unselect_selected (rowState (state c)))
                         (rowState (mNextState c));
  Some (updateState (with_rows rows (mNextState c)) c).

(** [selectAll()]; it throws when [sortedRows] is still undefined. *)
Definition selectAll (c : Component) : option Component :=
  visible ← sortedRows (state c);
  let spec :=
    foldl (fun newState key => <[key := select_command newState key true]> newState)
          (unselect_selected (rowState (state c))) visible in
  rows ← update_rowState spec (rowState (mNextState c));
  Some (updateState (with_rows rows (mNextState c)) c).

(** The first loop of [selectTo]: the flag [selecting] and the ids added
    to [selection]. *)
Definition selectTo_step (rowId : string) (anchor : option string)
    (acc : bool * gset string) (iterId : string) : bool * gset string :=
  let '(selecting, selection) := acc in
  let isBracket := bool_decide (iterId = rowId) || bool_decide (Some iterId = anchor) in
  let '(selecting, isBracket) :=
    if negb selecting && isBracket
    then (true, bool_decide (Some rowId = anchor))
    else (selecting, isBracket) in
  if selecting
  then (if isBracket then false else true, {[iterId]} ∪ selection)
  else (selecting, selection).

(** [selectTo(rowId)].  [selection] starts as [new Set([rowId,
    lastSelected])]; only strings are looked up in it. *)
Definition selectTo (rowId : string) (c : Component) : option Component :=
  visible ← sortedRows (state c);
  let anchor := lastSelected (state c) in
  let start : gset string :=
    {[rowId]} ∪ match anchor with Some l => {[l]} | None => ∅ end in
  let selection := (foldl (selectTo_step rowId anchor) (false, start) visible).2 in
  let spec : gmap string RowCommand :=
    foldl (fun newRows iterId =>
             <[iterId := select_command (rowState (state c)) iterId
                           (bool_decide (iterId ∈ selection))]> newRows)
          ∅ visible in
  rows ← update_rowState spec (rowState (mNextState c));
  Some (updateState (with_rows rows (mNextState c)) c).

(** [updateSelection(props)]: unselect the rows that are no longer in
    [props.data]. *)
Definition updateSelection {R} (data : Table.Data R) (c : Component) : option Component :=
  let changes : gmap string RowCommand :=
    (fun _ => SetSelected false)
      <$> filter (fun kv => selected kv.2 = Some true
                            /\ Table.data_is_undefined kv.1 data = true)
                 (rowState (state c)) in
  rows ← update_rowState changes (rowState (mNextState c));
  Some (updateState (with_rows rows (mNextState c)) c).

(** [Array.prototype.indexOf] *)
Definition indexOf (x : string) (l : list string) : Z :=
  match list_find (fun y => y = x) l with
  | Some (i, _) => Z.of_nat i
  | None => (-1)%Z
  end.

(** [selectRelative(delta)]: the row [delta] places after the last
    selected one, kept inside the table; the result is the new selection
    and the component. *)
Definition selectRelative (delta : Z) (now : Z) (c : Component)
  : option (option string * Component) :=
  match lastSelected (state c), sortedRows (state c) with
  | Some l, Some visible =>
      let idx := (Z.min (Z.max (indexOf l visible + delta) 0)
                        (Z.of_nat (length visible) - 1))%Z in
      let newSelection :=
        if decide (idx < 0)%Z then None else visible !! Z.to_nat idx in
      c' ← selectOnly newSelection false now c;
      Some (newSelection, c')
  | _, _ => Some (None, c)
  end.

(** The state a mounted component is in between two handlers: what was
    set last has been rendered. *)
Definition settled (c : Component) : Prop :=
  mMounted c = true /\ mNextState c = state c.

End WithRest.

(** [ITableRowAction.hotKey] *)
Record HotKey := {
  code : Z;
  shift : option bool;
  alt : option bool;
  ctrl : option bool;
}.

(** [wanted || false === pressed]: [===] binds tighter than [||]. *)
Definition modifier_matches (wanted : option bool) (pressed : bool) : bool :=
  match wanted with
  | Some true => true
  | _ => bool_decide (false = pressed)
  end.

(** [matchHotKey(action, code, shift, alt, ctrl)], as a condition. *)
Definition matchHotKey (hotKey : option HotKey) (keyCode : Z)
    (shiftKey altKey ctrlKey : bool) : bool :=
  match hotKey with
  | None => false
  | Some hk =>
      bool_decide (code hk = keyCode)
      && modifier_matches (shift hk) shiftKey
      && modifier_matches (alt hk) altKey
      && modifier_matches (ctrl hk) ctrlKey
  end.

End Selection.

(** ** The table component: sort requests and row visibility *)

Module Columns.

#[global] Existing Instance Table.SortDirection_eq_dec.

(** The members of [ITableAttribute] that decide a column's state. *)
Record Column := {
  col_id : string;
  isDefaultVisible : option bool;
  isDefaultSort : option bool;
}.

(** An entry of [attributeState] as the store holds it: either member may
    be absent. *)
Record StoredState := {
  st_enabled : option bool;
  st_sortDirection : option Table.SortDirection;
}.

(** What [getAttributeState] returns. *)
Record AttributeState := {
  enabled : bool;
  sortDirection : Table.SortDirection;
}.

(** [getAttributeStates(props)], with [props.attributeState] and
    [this.mVisibleAttributes]; [None] is [undefined]. *)
Definition getAttributeStates (attributeState : option (gmap string StoredState))
    (mVisibleAttributes : option (list Column)) : option (gmap string StoredState) :=
  match attributeState, mVisibleAttributes with
  | Some states, _ => Some states
  | None, None => None
  | None, Some visible =>
      Some (foldl (fun prev attribute =>
                     if decide (isDefaultSort attribute = Some true)
                     then <[col_id attribute :=
                              {| st_enabled := None;
                                 st_sortDirection := Some Table.asc |}]> prev
                     else prev) ∅ visible)
  end.

(** [getAttributeState(attribute, attributeStatesIn)]: the defaults,
    overridden by the members the stored entry has. *)
Definition getAttributeState (attribute : Column)
    (attributeStatesIn : option (gmap string StoredState))
    (attributeState : option (gmap string StoredState))
    (mVisibleAttributes : option (list Column)) : AttributeState :=
  let attributeStates :=
    default ∅ (match attributeStatesIn with
               | Some states => Some states
               | None => getAttributeStates attributeState mVisibleAttributes
               end) in
  let defaultVisible := default true (isDefaultVisible attribute) in
  let stored := attributeStates !! col_id attribute in
  {| enabled := default defaultVisible (stored ≫= st_enabled);
     sortDirection := default Table.none (stored ≫= st_sortDirection) |}.

(** [setSortDirection(id, direction)]: the calls of [onSetAttributeSort]
    it makes, in order, as (attribute id, direction). *)
Definition setSortDirection (objects : list Column)
    (attributeState : option (gmap string StoredState))
    (mVisibleAttributes : option (list Column))
    (id : string) (direction : Table.SortDirection)
  : list (string * Table.SortDirection) :=
  omap (fun testId =>
          attribute ← snd <$> list_find (fun a => col_id a = testId) objects;
          let attrState :=
            getAttributeState attribute None attributeState mVisibleAttributes in
          if decide (id <> testId /\ sortDirection attrState <> Table.none)
          then Some (testId, Table.none) else None)
       (col_id <$> objects)
  ++ [(id, direction)].

End Columns.

Module Visibility.

(** [SuperTable.SCROLL_DEBOUNCE] *)
Definition SCROLL_DEBOUNCE : Z := 5000.

(** The fields that decide which rows are rendered: the visibility to set
    next, the visibility reported by the rows, whether the timer of
    [mDelayedVisibilityTimer] is pending, whether a frame is requested,
    the time of the last scroll event, and [this.state.rowVisibility] of a
    mounted table. *)
Record Visibility := {
  mNextVisibility : gmap string bool;
  mDelayedVisibility : gmap string bool;
  mDelayedVisibilityTimer : bool;
  mWillSetVisibility : bool;
  mLastScroll : Z;
  rowVisibility : gmap string bool;
}.

Definition initial : Visibility :=
  {| mNextVisibility := ∅; mDelayedVisibility := ∅; mDelayedVisibilityTimer := false;
     mWillSetVisibility := false; mLastScroll := 0; rowVisibility := ∅ |}.

(** [triggerUpdateVisibility()]: request a frame unless one is requested. *)
Definition triggerUpdateVisibility (v : Visibility) : Visibility :=
  {| mNextVisibility := mNextVisibility v; mDelayedVisibility := mDelayedVisibility v;
     mDelayedVisibilityTimer := mDelayedVisibilityTimer v;
     mWillSetVisibility := true; mLastScroll := mLastScroll v;
     rowVisibility := rowVisibility v |}.

(** [setRowVisible(rowId, visible)] *)
Definition setRowVisible (rowId : string) (visible : bool) (v : Visibility) : Visibility :=
  if visible || negb (mDelayedVisibilityTimer v) then
    let v' :=
      {| mNextVisibility := <[rowId := visible]> (mNextVisibility v);
         mDelayedVisibility := <[rowId := visible]> (mDelayedVisibility v);
         mDelayedVisibilityTimer := mDelayedVisibilityTimer v;
         mWillSetVisibility := mWillSetVisibility v; mLastScroll := mLastScroll v;
         rowVisibility := rowVisibility v |} in
    if decide (Some visible <> rowVisibility v !! rowId)
    then triggerUpdateVisibility v' else v'
  else
    {| mNextVisibility := mNextVisibility v;
       mDelayedVisibility := <[rowId := visible]> (mDelayedVisibility v);
       mDelayedVisibilityTimer := mDelayedVisibilityTimer v;
       mWillSetVisibility := mWillSetVisibility v; mLastScroll := mLastScroll v;
       rowVisibility := rowVisibility v |}.

(** The part of [onScroll] that concerns visibility; [now] is
    [Date.now()]. *)
Definition onScroll (now : Z) (v : Visibility) : Visibility :=
  {| mNextVisibility := mNextVisibility v; mDelayedVisibility := mDelayedVisibility v;
     mDelayedVisibilityTimer := true;
     mWillSetVisibility := mWillSetVisibility v; mLastScroll := now;
     rowVisibility := rowVisibility v |}.

(** [postScroll()], run by the timer. *)
Definition postScroll (now : Z) (v : Visibility) : Visibility :=
  if decide (now - mLastScroll v < SCROLL_DEBOUNCE)%Z then
    {| mNextVisibility := mNextVisibility v; mDelayedVisibility := mDelayedVisibility v;
       mDelayedVisibilityTimer := true;
       mWillSetVisibility := mWillSetVisibility v; mLastScroll := mLastScroll v;
       rowVisibility := rowVisibility v |}
  else
    triggerUpdateVisibility
      {| mNextVisibility := mDelayedVisibility v;
         mDelayedVisibility := mDelayedVisibility v;
         mDelayedVisibilityTimer := false;
         mWillSetVisibility := mWillSetVisibility v; mLastScroll := mLastScroll v;
         rowVisibility := rowVisibility v |}.

(** The callback of [requestAnimationFrame]: the next visibility becomes
    the rendered one. *)
Definition onFrame (v : Visibility) : Visibility :=
  {| mNextVisibility := mNextVisibility v; mDelayedVisibility := mDelayedVisibility v;
     mDelayedVisibilityTimer := mDelayedVisibilityTimer v;
     mWillSetVisibility := false; mLastScroll := mLastScroll v;
     rowVisibility := mNextVisibility v |}.

(** What can happen to the table; the timer and the frame run only when
    they are pending. *)
Inductive Event :=
| RowReports (rowId : string) (visible : bool)
| Scrolled (now : Z)
| TimerFires (now : Z)
| FrameRuns.

Definition step (v : Visibility) (e : Event) : Visibility :=
  match e with
  | RowReports rowId visible => setRowVisible rowId visible v
  | Scrolled now => onScroll now v
  | TimerFires now => if mDelayedVisibilityTimer v then postScroll now v else v
  | FrameRuns => if mWillSetVisibility v then onFrame v else v
  end.

Definition run (events : list Event) : Visibility := foldl step initial events.

(** What row [r] reported last among [events], if it reported at all. *)
Definition last_report (events : list Event) (r : string) : option bool :=
  foldl (fun seen e =>
           match e with
           | RowReports rowId visible => if decide (rowId = r) then Some visible else seen
           | _ => seen
           end)
        None events.

End Visibility.

(** ** Concrete instances

    A small platform and a small value type on which the definitions
    above can be run. *)

Module Sample.
Import Backup Table.

(** [s] without the prefix [pre], if it starts with it. *)
Fixpoint strip_prefix (pre s : string) : option string :=
  match pre, s with
  | EmptyString, _ => Some s
  | String a pre', String b s' => if decide (a = b) then strip_prefix pre' s' else None
  | String _ _, EmptyString => None
  end.

(** The suffix from the last dot on. *)
Fixpoint extname (s : string) : string :=
  match s with
  | EmptyString => ""
  | String c rest =>
      let e := extname rest in
      if decide (e = "") then (if decide (c = "."%char) then s else "") else e
  end.

(** A stand-in for [JSON.stringify] that prints flat objects of numbers
    and strings, and for [JSON.parse] that knows the documents below. *)
Definition show_member (kv : string * JsVal) : string :=
  kv.1 +:+ ":" +:+ match kv.2 with
                   | VNum n => pretty n
                   | VStr s => s
                   | _ => "null"
                   end.

Definition stringify (v : JsVal) : string :=
  match v with
  | VObj m => "{" +:+ String.concat "," (show_member <$> map_to_list m) +:+ "}"
  | VNum n => pretty n
  | VStr s => s
  | _ => "null"
  end.

Definition stored : JsVal := VObj {[ "a" := VNum 1; "b" := VNum 2 ]}.

Definition documents : list JsVal := [VObj ∅; stored; VNull].

Definition parse (text : string) : option JsVal :=
  snd <$> list_find (fun v => stringify v = text) documents.

(** Removal fails on a path that holds no file. *)
Definition posix : Platform := {|
  path_join a b := a +:+ "/" +:+ b;
  path_extname := extname;
  temp := "/tmp";
  JSON_parse := parse;
  JSON_stringify := stringify;
  readdir dir s :=
    Resolved (omap (strip_prefix (dir +:+ "/")) (elements (dom (files s))));
  remove path s :=
    match files s !! path with
    | Some _ => (Resolved (), {| files := delete path (files s); dirs := dirs s |})
    | None => (Rejected (ENOENT path), s)
    end;
|}.

(** A world in which backup ["k1"] is registered but has no file, and one
    in which its file holds [stored]. *)
Definition registered_only : World :=
  {| backups := {[ "k1" := 1700000000000%Z ]};
     fs := {| files := ∅; dirs := ∅ |};
     logged := []; journal := [] |}.

Definition with_file : World :=
  {| backups := {[ "k1" := 1700000000000%Z ]};
     fs := {| files := {[ "/tmp/state_backups/backup_1700000000000.json"
                          := stringify stored ]};
              dirs := {[ "/tmp/state_backups" ]} |};
     logged := []; journal := [] |}.

Definition update : JsVal := VObj {[ "b" := VNum 3; "c" := VNum 4 ]}.

(** Cell values for the table: undefined, numbers, strings and the
    members of [Object.prototype].  Numbers compare by value and strings
    by their characters; other pairs are left incomparable.  A member's
    properties are taken as undefined, which holds for all but the few
    names a function answers to itself. *)
Inductive Val := Undef | Num (n : Z) | Str (s : string) | Native (name : string).

#[global] Instance Val_eq_dec : EqDecision Val.
Proof. solve_decision. Defined.

#[global] Instance Val_JsValue : JsValue Val := {|
  undefined := Undef;
  js_string := Str;
  js_lt a b :=
    match a, b with
    | Num x, Num y => bool_decide (x < y)%Z
    | Str x, Str y => String.ltb x y
    | _, _ => false
    end;
  js_strict_eq a b := bool_decide (a = b);
  js_member := Native;
  js_member_get _ _ := Undef;
|}.

(** A table over numeric raw data.  [size] shows the raw number;
    [stamp] is volatile and shows its successor; [flag] is volatile and
    constant; [grade] sorts by its calculated value and also carries a
    comparator on the raw data. *)
Definition compare_Z (x y : Z) : Z :=
  if bool_decide (x < y)%Z then (-1)%Z else if bool_decide (x = y) then 0%Z else 1%Z.

Definition compare_val (a b : Val) : Z :=
  match a, b with
  | Num x, Num y => compare_Z x y
  | _, _ => 0%Z
  end.

Definition compare_raw (a b : option (RowData Z)) : Z :=
  match a, b with
  | Some x, Some y => compare_Z (row_raw x) (row_raw y)
  | _, _ => 0%Z
  end.

Definition size : ITableAttribute Z Val :=
  {| id := "size"; isVolatile := false; calc r := Num r;
     sortFunc := None; sortFuncRaw := None |}.

Definition stamp : ITableAttribute Z Val :=
  {| id := "stamp"; isVolatile := true; calc r := Num (r + 1);
     sortFunc := None; sortFuncRaw := None |}.

Definition flag : ITableAttribute Z Val :=
  {| id := "flag"; isVolatile := true; calc _ := Num 7;
     sortFunc := None; sortFuncRaw := None |}.

Definition grade : ITableAttribute Z Val :=
  {| id := "grade"; isVolatile := false; calc r := Num (r / 10);
     sortFunc := Some (fun a b _ => compare_val a b);
     sortFuncRaw := Some (fun a b _ => compare_raw a b) |}.

Definition columns : list (ITableAttribute Z Val) := [size; stamp; flag].

(** The props of a first update, and of a second one in which row ["r1"]
    is the same object with another content and row ["r2"] is new. *)
Definition props1 : IProps Z Val :=
  {| props_ref := 1;
     data := [("r1", {| row_ref := 1; row_raw := 10%Z |})];
     objects := columns |}.

Definition props2 : IProps Z Val :=
  {| props_ref := 2;
     data := [("r1", {| row_ref := 1; row_raw := 11%Z |});
              ("r2", {| row_ref := 2; row_raw := 20%Z |})];
     objects := columns |}.

Definition props3 : IProps Z Val :=
  {| props_ref := 3; data := []; objects := columns |}.

Definition cache1 : ILookupCalculated Val :=
  {[ "r1" := {[ "size" := Num 10; "stamp" := Num 11; "flag" := Num 7;
                "__id" := Str "r1" ]} ]}.

(** A table with two attributes that share the id ["x"], and a table
    with an attribute that takes the name [__id]. *)
Definition twin_volatile : ITableAttribute Z Val :=
  {| id := "x"; isVolatile := true; calc r := Num (r + 1);
     sortFunc := None; sortFuncRaw := None |}.

Definition twin_plain : ITableAttribute Z Val :=
  {| id := "x"; isVolatile := false; calc r := Num r;
     sortFunc := None; sortFuncRaw := None |}.

Definition twins : IProps Z Val :=
  {| props_ref := 4;
     data := [("r1", {| row_ref := 1; row_raw := 10%Z |})];
     objects := [twin_volatile; twin_plain] |}.

Definition reserved : ITableAttribute Z Val :=
  {| id := "__id"; isVolatile := false; calc r := Num r;
     sortFunc := None; sortFuncRaw := None |}.

Definition reserving : IProps Z Val :=
  {| props_ref := 5;
     data := [("r1", {| row_ref := 1; row_raw := 10%Z |})];
     objects := [reserved] |}.

(** Three rows whose grades tie for the first two; the raw data would put
    ["b"] before ["a"]. *)
Definition graded : Data Z :=
  [("a", {| row_ref := 1; row_raw := 25%Z |});
   ("b", {| row_ref := 2; row_raw := 21%Z |});
   ("c", {| row_ref := 3; row_raw := 13%Z |})].

Definition grades : ILookupCalculated Val :=
  {[ "a" := {[ "grade" := Num 2 ]};
     "b" := {[ "grade" := Num 2 ]};
     "c" := {[ "grade" := Num 1 ]} ]}.

Definition by_grade : gmap string IAttributeState :=
  {[ "grade" := {| enabled := true; sortDirection := Some asc |} ]}.

(** The same rows sized by their raw number, ["b"] not having a size
    yet, and a table sorted by [size]. *)
Definition sizes : ILookupCalculated Val :=
  {[ "a" := {[ "size" := Num 25 ]};
     "b" := ∅;
     "c" := {[ "size" := Num 13 ]} ]}.

Definition by_size : gmap string IAttributeState :=
  {[ "size" := {| enabled := true; sortDirection := Some asc |} ]}.

(** The table after its first update has settled. *)
Definition settled1 : @Component Z Val :=
  {| mLastUpdateState := Some props1; mNextUpdateState := Some props1;
     mUpdateInProgress := false; calculatedValues := Some cache1;
     inflight := None; started := [(props1, None)] |}.

(** A cache holding both rows of [props2]. *)
Definition cache2 : ILookupCalculated Val :=
  {[ "r1" := {[ "size" := Num 10; "stamp" := Num 11; "flag" := Num 7;
                "__id" := Str "r1" ]};
     "r2" := {[ "size" := Num 20; "stamp" := Num 21; "flag" := Num 7;
                "__id" := Str "r2" ]} ]}.

(** A mounted table with four visible rows, of which ["a"] is selected
    and highlighted and ["b"] has a row state; and the same table with no
    visible row. *)
Definition marked : gmap string Selection.IRowState :=
  {[ "a" := {| Selection.selected := Some true; Selection.highlighted := Some true |};
     "b" := {| Selection.selected := Some false; Selection.highlighted := None |} ]}.

Definition view (visible : list string) : @Selection.IComponentState () :=
  {| Selection.lastSelected := Some "a"; Selection.rowState := marked;
     Selection.sortedRows := Some visible; Selection.detailsOpen := false;
     Selection.rest := () |}.

Definition mounted (visible : list string) : @Selection.Component () :=
  {| Selection.state := view visible; Selection.mNextState := view visible;
     Selection.mMounted := true; Selection.mLastSelectOnly := 0 |}.

(** A hot key that asks for shift. *)
Definition shift_delete : Selection.HotKey :=
  {| Selection.code := 46; Selection.shift := Some true;
     Selection.alt := None; Selection.ctrl := None |}.

(** Three columns, of which ["x"] and ["z"] have a sort direction. *)
Definition three_columns : list Columns.Column :=
  [ {| Columns.col_id := "x"; Columns.isDefaultVisible := None;
       Columns.isDefaultSort := None |};
    {| Columns.col_id := "y"; Columns.isDefaultVisible := None;
       Columns.isDefaultSort := None |};
    {| Columns.col_id := "z"; Columns.isDefaultVisible := Some false;
       Columns.isDefaultSort := None |} ].

Definition two_sorted : gmap string Columns.StoredState :=
  {[ "x" := {| Columns.st_enabled := None; Columns.st_sortDirection := Some asc |};
     "z" := {| Columns.st_enabled := Some true;
               Columns.st_sortDirection := Some desc |} ]}.

(** A column the table sorts by until the user chooses another. *)
Definition default_sorted : Columns.Column :=
  {| Columns.col_id := "name"; Columns.isDefaultVisible := None;
     Columns.isDefaultSort := Some true |}.

End Sample.

(** * Properties *)

(** ** Steam *)

Section SteamFacts.
Import Steam.

(** C1: in the default Steam implementation findByName, findByAppId and
    getGameExecutionInfo reject with a GameNotFound error and allGames
    resolves to the empty list, for every input. *)
Theorem default_steam_rejects_or_empty
    (namePattern : string) (appId : AppIdArg)
    (gamePath : string) (appNum : option Z) (args : option (list string)) :
  @findByName default namePattern
    = Rejected (EGameNotFound (new_GameNotFound namePattern))
  /\ @findByAppId default appId = Rejected (EGameNotFound (new_GameNotFound ""))
  /\ @allGames default = Resolved []
  /\ @getGameExecutionInfo default gamePath appNum args
    = Rejected (EGameNotFound (new_GameNotFound gamePath)).
Proof. repeat split. Qed.

(** The rejections are all of the "not found" kind. *)
Lemma default_steam_failure_kind (e : SteamError) (s : string) (a : AppIdArg)
    (n : option Z) (args : option (list string)) :
  @findByName default s = Rejected e
  \/ @findByAppId default a = Rejected e
  \/ @getGameExecutionInfo default s n args = Rejected e ->
  is_not_found e = true.
Proof. cbn. intros [Heq | [Heq | Heq]]; inversion Heq; reflexivity. Qed.

(** C7: a GamePathNotMatched error returns the game path and the entry
    paths it was constructed from, and a GameNotFound error returns the
    search term it was constructed from. *)
Theorem steam_errors_carry_context
    (path : string) (entries : list string) (term : string) :
  gamePath (new_GamePathNotMatched path entries) = path
  /\ steamEntryPaths (new_GamePathNotMatched path entries) = entries
  /\ search (new_GameNotFound term) = term.
Proof. repeat split. Qed.

End SteamFacts.

(** ** [lazy] *)

(** Closed facts over concrete inputs are settled by evaluation. *)
Ltac by_evaluation := apply (bool_decide_unpack _); vm_compute; exact I.

Section LazyFacts.
Import Lazy.
Context {T W : Type}.
Implicit Types (func : @Thunk T W) (c : @Cell T) (w : W).

(** Once a value is cached, a call returns it and touches nothing. *)
Lemma call_cached func c w v :
  value c = Some v -> call func c w = (Some v, c, w).
Proof. unfold call. intros ->. reflexivity. Qed.

Lemma calls_cached func c w v n :
  value c = Some v -> calls func n c w = (replicate n (Some v), c, w).
Proof.
  intros Hv. induction n as [|n IH]; simpl; [reflexivity|].
  rewrite (call_cached _ _ _ _ Hv), IH. reflexivity.
Qed.

(** While nothing is cached, a call runs the thunk. *)
Lemma call_empty func c w :
  value c = None ->
  call func c w
    = ((func w).1, {| value := (func w).1; invocations := S (invocations c) |}, (func w).2).
Proof. unfold call. intros ->. destruct (func w). reflexivity. Qed.

Lemma calls_undefined func n :
  (forall w, (func w).1 = None) ->
  forall c w, value c = None ->
    (calls func n c w).1.1 = replicate n None
    /\ invocations (calls func n c w).1.2 = n + invocations c
    /\ value (calls func n c w).1.2 = None.
Proof.
  intros Hundef. induction n as [|n IH]; intros c w Hc; simpl; [done|].
  rewrite (call_empty _ _ _ Hc), (Hundef w).
  set (c1 := {| value := None; invocations := S (invocations c) |}).
  destruct (IH c1 (func w).2 eq_refl) as (Hr & Hi & Hv).
  destruct (calls func n c1 (func w).2) as [[rs c2] w2]. simpl in *.
  rewrite Hr, Hi. repeat split; [lia | done].
Qed.

(** C9: when the thunk's result is not undefined, any number of calls of
    lazy(func) invokes func once, on the first call, and every call
    returns that result; when the thunk returns undefined, every call
    invokes it again. *)
Theorem lazy_caches_defined_result func w :
  (forall v w', func w = (Some v, w') ->
     forall n, calls func (S n) lazy w
               = (replicate (S n) (Some v), {| value := Some v; invocations := 1 |}, w'))
  /\ ((forall w0, (func w0).1 = None) ->
      forall n, (calls func n lazy w).1.1 = replicate n None
                /\ invocations (calls func n lazy w).1.2 = n).
Proof.
  split.
  - intros v w' Hf n. simpl. unfold call, lazy at 1. simpl. rewrite Hf.
    rewrite (calls_cached _ _ _ v) by reflexivity. reflexivity.
  - intros Hundef n.
    destruct (calls_undefined func n Hundef lazy w eq_refl) as (Hr & Hi & _).
    split; [exact Hr | rewrite Hi; simpl; lia].
Qed.

End LazyFacts.

(** A counter as thunk: the world is the number of times it has run. *)
Lemma lazy_caches_defined_result_witness :
  Lazy.calls (fun k : nat => (Some (k + 7), S k)) 3 Lazy.lazy 0
    = ([Some 7; Some 7; Some 7], {| Lazy.value := Some 7; Lazy.invocations := 1 |}, 1)
  /\ Lazy.invocations
       (Lazy.calls (fun k : nat => (@None nat, S k)) 4 Lazy.lazy 0).1.2 = 4.
Proof.
  split.
  - exact (proj1 (lazy_caches_defined_result (fun k : nat => (Some (k + 7), S k)) 0)
             7 1 eq_refl 2).
  - exact (proj2 (proj2 (lazy_caches_defined_result (fun k : nat => (@None nat, S k)) 0)
                    (fun _ => eq_refl) 4)).
Defined.

(** ** State backups *)

Section BackupFacts.
Import Backup.
Context `{Platform}.
Implicit Types (w : World) (data : JsVal).

Lemma spread2_empty data : spread2 (VObj ∅) data = VObj (own_props data).
Proof. unfold spread2. simpl. by rewrite (right_id_L ∅ (∪)). Qed.

(** Key by key: the second operand wins, the first fills the gaps. *)
Lemma spread2_lookup (a b : JsVal) (k : string) :
  own_props (spread2 a b) !! k
    = match own_props b !! k with
      | Some v => Some v
      | None => own_props a !! k
      end.
Proof.
  unfold spread2. simpl. rewrite lookup_union.
  destruct (own_props b !! k), (own_props a !! k); reflexivity.
Qed.

Lemma read_existing_journal path w :
  (read_existing path w).2 = record_call (ReadFile path) w.
Proof.
  unfold read_existing, readFileSync.
  destruct (files (fs w) !! path); [destruct (JSON_parse _)|]; reflexivity.
Qed.

(** The failures of the [try] block: the file is missing or its text
    does not parse. *)
Lemma read_existing_fails path w err :
  (read_existing path w).1 = inl err <->
  (files (fs w) !! path = None /\ err = ENOENT path)
  \/ (exists text, files (fs w) !! path = Some text
                   /\ JSON_parse text = None /\ err = SyntaxError text).
Proof.
  unfold read_existing, readFileSync.
  destruct (files (fs w) !! path) as [text|] eqn:Hf; simpl.
  - destruct (JSON_parse text) eqn:Hp; simpl; split.
    + discriminate.
    + intros [[? _] | (t & Ht & Hn & _)]; [discriminate | congruence].
    + intros [= <-]. right. eauto.
    + intros [[? _] | (t & Ht & Hn & ->)]; [discriminate | congruence].
  - split; [intros [= <-]; by left|].
    intros [[_ ->] | (t & Ht & _)]; [done | discriminate].
Qed.

(** The call with a registered id, by the outcome of the [try] block. *)
Lemma createStateBackupSync_registered fresh now id time data w :
  backups w !! id = Some time ->
  let file := path_join backupPath (makeName time) in
  createStateBackupSync fresh now (Some id) data w
  = match (read_existing file w).1 with
    | inr old =>
        (id, writeFileSync file (JSON_stringify (spread2 old data))
               (ensureDirSync backupPath (record_call (ReadFile file) w)))
    | inl err =>
        (id, writeFileSync file (JSON_stringify (spread2 (VObj ∅) data))
               (ensureDirSync backupPath
                  (log "warn" "failed to read existing backup data" err
                     (record_call (ReadFile file) w))))
    end.
Proof.
  intros Hreg file. unfold createStateBackupSync, Js.get. simpl. rewrite Hreg. simpl.
  fold file. pose proof (read_existing_journal file w) as Hj.
  destruct (read_existing file w) as [[err|old] w']; simpl in *; subst w'; reflexivity.
Qed.

(** The call with an id that is not registered but names a member the
    registry inherits: the id is taken as registered and the file is named
    after the member. *)
Lemma createStateBackupSync_inherited fresh now id data w :
  backups w !! id = None -> Js.inherited id = true ->
  let file := path_join backupPath (makeName_member id) in
  createStateBackupSync fresh now (Some id) data w
  = match (read_existing file w).1 with
    | inr old =>
        (id, writeFileSync file (JSON_stringify (spread2 old data))
               (ensureDirSync backupPath (record_call (ReadFile file) w)))
    | inl err =>
        (id, writeFileSync file (JSON_stringify (spread2 (VObj ∅) data))
               (ensureDirSync backupPath
                  (log "warn" "failed to read existing backup data" err
                     (record_call (ReadFile file) w))))
    end.
Proof.
  intros Hnone Hinh file. unfold createStateBackupSync, Js.get. simpl.
  rewrite Hnone, Hinh. simpl.
  fold file. pose proof (read_existing_journal file w) as Hj.
  destruct (read_existing file w) as [[err|old] w']; simpl in *; subst w'; reflexivity.
Qed.

Lemma createStateBackupSync_fresh fresh now backupId data w :
  (backupId = None
   \/ exists id, backupId = Some id /\ backups w !! id = None /\ Js.inherited id = false) ->
  createStateBackupSync fresh now backupId data w
  = (fresh,
     writeFileSync (path_join backupPath (makeName now))
       (JSON_stringify (spread2 (VObj ∅) data))
       (ensureDirSync backupPath (set_backups (insert fresh now) w))).
Proof.
  intros [-> | (id & -> & Hnone & Hord)]; unfold createStateBackupSync, Js.get; simpl;
    [|rewrite Hnone, Hord]; reflexivity.
Qed.

(** [backupPath] as the source builds it: the memoised thunk yields the
    joined path on every call and runs once. *)
Lemma backupPath_is_lazy (n : nat) :
  Lazy.calls (fun _ : () => (Some (path_join temp "state_backups"), ())) (S n) Lazy.lazy ()
  = (replicate (S n) (Some backupPath),
     {| Lazy.value := Some backupPath; Lazy.invocations := 1 |}, ()).
Proof.
  cbn [Lazy.calls]. rewrite call_empty by reflexivity. cbn [fst snd].
  rewrite (calls_cached _ _ _ backupPath) by reflexivity. reflexivity.
Qed.

(** C5: with a registered backupId, a failure to read or parse the
    existing backup file is logged as a warning and nothing more: the
    call returns the backupId and writes the new data alone to the very
    file it failed to read. *)
Theorem read_failure_is_logged_and_overwritten
    fresh now id time data w err :
  backups w !! id = Some time ->
  (read_existing (path_join backupPath (makeName time)) w).1 = inl err ->
  let file := path_join backupPath (makeName time) in
  let content := JSON_stringify (VObj (own_props data)) in
  let result := createStateBackupSync fresh now (Some id) data w in
  result.1 = id
  /\ logged result.2
     = logged w ++ [{| level := "warn";
                       message := "failed to read existing backup data";
                       meta := err |}]
  /\ journal result.2
     = journal w ++ [ReadFile file; EnsureDir backupPath; WriteFile file content]
  /\ files (fs result.2) = <[file := content]> (files (fs w))
  /\ backups result.2 = backups w.
Proof.
  intros Hreg Hfail file content result. subst result file content.
  rewrite (createStateBackupSync_registered _ _ _ _ _ _ Hreg).
  cbv zeta. rewrite Hfail, spread2_empty. simpl.
  repeat split. by rewrite <- !(assoc_L (++)).
Qed.

(** X29: with a registered backupId whose file parses, the file is
    rewritten with the spread of the stored value and the new data: a key
    of the new data has the new value, any other key keeps the stored
    one.  With no backupId, or one that is neither registered nor the name
    of an inherited member, the fresh id is registered with the current
    time and returned, and the new data alone is written. *)
Theorem backup_data_is_shallow_merge fresh now data w :
  (forall id time text old,
     backups w !! id = Some time ->
     files (fs w) !! path_join backupPath (makeName time) = Some text ->
     JSON_parse text = Some old ->
     exists merged,
       createStateBackupSync fresh now (Some id) data w
       = (id, writeFileSync (path_join backupPath (makeName time))
                (JSON_stringify (VObj merged))
                (ensureDirSync backupPath
                   (record_call (ReadFile (path_join backupPath (makeName time))) w)))
       /\ forall k, merged !! k
                    = match own_props data !! k with
                      | Some v => Some v
                      | None => own_props old !! k
                      end)
  /\ (forall backupId,
        (backupId = None
         \/ exists id, backupId = Some id /\ backups w !! id = None
                       /\ Js.inherited id = false) ->
        let result := createStateBackupSync fresh now backupId data w in
        result.1 = fresh
        /\ backups result.2 = <[fresh := now]> (backups w)
        /\ files (fs result.2)
           = <[path_join backupPath (makeName now)
               := JSON_stringify (VObj (own_props data))]> (files (fs w))).
Proof.
  split.
  - intros id time text old Hreg Hfile Hparse.
    exists (own_props data ∪ own_props old). split.
    + rewrite (createStateBackupSync_registered _ _ _ _ _ _ Hreg).
      unfold read_existing, readFileSync. rewrite Hfile, Hparse. reflexivity.
    + intros k. apply (spread2_lookup old data k).
  - intros backupId Hfresh result. subst result.
    rewrite (createStateBackupSync_fresh _ _ _ _ _ Hfresh), spread2_empty.
    repeat split.
Qed.

Lemma remove_quietly_spec name w :
  (remove_quietly name w).1 = Resolved ()
  /\ journal (remove_quietly name w).2
     = journal w ++ [Remove (path_join backupPath name)]
  /\ backups (remove_quietly name w).2 = backups w.
Proof.
  unfold remove_quietly, removeAsync. simpl.
  destruct (remove _ _) as [[[]|e] s]; simpl; done.
Qed.

Lemma remove_all_quietly names : forall w,
  (promise_map remove_quietly names w).1 = Resolved (replicate (length names) ())
  /\ journal (promise_map remove_quietly names w).2
     = journal w ++ ((fun n => Remove (path_join backupPath n)) <$> names).
Proof.
  induction names as [|name names IH]; intros w; simpl.
  - by rewrite (right_id_L [] (++)).
  - destruct (remove_quietly_spec name w) as (Hr & Hj & _).
    destruct (remove_quietly name w) as [r w1]. simpl in Hr, Hj. subst r.
    destruct (IH w1) as (Hrs & Hjs).
    destruct (promise_map remove_quietly names w1) as [rs w2]. simpl in *.
    subst rs. split; [reflexivity|].
    rewrite Hjs, Hj, <- (assoc_L (++)). reflexivity.
Qed.

Lemma deleteBackups_unfold names w :
  deleteBackups names w
  = (promise_then (promise_map remove_quietly names w).1 (fun _ => ()),
     (promise_map remove_quietly names w).2).
Proof.
  unfold deleteBackups.
  destruct (promise_map remove_quietly names w). reflexivity.
Qed.

(** C6: whatever the removals do, deleteBackups resolves, and it has
    asked for the removal of every listed file, in order, whether or not
    earlier removals failed. *)
Theorem deleteBackups_resolves_and_tries_all (names : list string) w :
  (deleteBackups names w).1 = Resolved ()
  /\ journal (deleteBackups names w).2
     = journal w ++ ((fun n => Remove (path_join backupPath n)) <$> names).
Proof.
  rewrite deleteBackups_unfold. simpl.
  destruct (remove_all_quietly names w) as (-> & ->). done.
Qed.

(** X28: no backup leaves the backup directory.  createStateBackupSync
    and createFullBackup write one file, directly under
    [<temp>/state_backups], and change no other; its name is
    [backup_<time>.json] for the time the returned id is registered with,
    except when createStateBackupSync is handed an unregistered id that
    names an inherited member, where the name is made from that member.
    getListOfBackups lists that directory and deleteBackups removes names
    inside it, both through promises. *)
Theorem backups_live_under_temp_state_backups
    fresh now backupId data (state : JsVal) (names : list string) w :
  let dir := path_join temp "state_backups" in
  let file time := path_join dir ("backup_" +:+ pretty time +:+ ".json") in
  (let r := createStateBackupSync fresh now backupId data w in
   exists name content,
     files (fs r.2) = <[path_join dir name := content]> (files (fs w))
     /\ writes (journal r.2) = writes (journal w) ++ [path_join dir name]
     /\ ((exists time, backups r.2 !! r.1 = Some time /\ path_join dir name = file time)
         \/ (backupId = Some r.1 /\ backups w !! r.1 = None /\ Js.inherited r.1 = true
             /\ name = makeName_member r.1)))
  /\ (let r := createFullBackup fresh now state w in
      r.1 = Resolved fresh
      /\ backups r.2 !! fresh = Some now
      /\ files (fs r.2) = <[file now := JSON_stringify state]> (files (fs w))
      /\ journal r.2
         = journal w ++ [EnsureDir dir; WriteFile (file now) (JSON_stringify state)])
  /\ (let r := getListOfBackups w in
      r.1 = promise_then (readdir dir (fs (ensureDirSync dir w)))
              (filter (fun n => startsWith n "backup" = true /\ path_extname n = ".json"))
      /\ journal r.2 = journal w ++ [EnsureDir dir; ReadDir dir])
  /\ (let r := deleteBackups names w in
      journal r.2 = journal w ++ ((fun n => Remove (path_join dir n)) <$> names)).
Proof.
  intros dir file. repeat split.
  - cbv zeta.
    assert (Hcases : (backupId = None
                      \/ exists id, backupId = Some id /\ backups w !! id = None
                                    /\ Js.inherited id = false)
                     \/ (exists id time, backupId = Some id /\ backups w !! id = Some time)
                     \/ (exists id, backupId = Some id /\ backups w !! id = None
                                    /\ Js.inherited id = true)).
    { destruct backupId as [id|]; [|by left; left].
      destruct (backups w !! id) as [time|] eqn:Htime; [right; left; eauto|].
      destruct (Js.inherited id) eqn:Hinh; [right; right | left; right]; eauto. }
    destruct Hcases as [Hfresh | [(id & time & -> & Htime) | (id & -> & Hnone & Hinh)]].
    + rewrite (createStateBackupSync_fresh _ _ _ _ _ Hfresh).
      exists (makeName now), (JSON_stringify (spread2 (VObj ∅) data)). simpl.
      split; [reflexivity|]. split.
      * unfold writes. rewrite !omap_app. simpl. by rewrite (right_id_L [] (++)).
      * left. exists now. split; [apply lookup_insert_eq | reflexivity].
    + rewrite (createStateBackupSync_registered _ _ _ _ _ _ Htime). cbv zeta.
      destruct (read_existing _ w).1 as [err|old];
        eexists (makeName time), _; simpl; (split; [reflexivity|]);
        (split; [unfold writes; rewrite !omap_app; simpl;
                 by rewrite !(right_id_L [] (++))
                |left; exists time; split; [exact Htime | reflexivity]]).
    + rewrite (createStateBackupSync_inherited _ _ _ _ _ Hnone Hinh). cbv zeta.
      destruct (read_existing _ w).1 as [err|old];
        eexists (makeName_member id), _; simpl; (split; [reflexivity|]);
        (split; [unfold writes; rewrite !omap_app; simpl;
                 by rewrite !(right_id_L [] (++))
                |right; done]).
  - simpl. apply lookup_insert_eq.
  - simpl. by rewrite <- !(assoc_L (++)).
  - unfold getListOfBackups. simpl. by rewrite <- !(assoc_L (++)).
  - cbv zeta. rewrite deleteBackups_unfold. simpl.
    apply remove_all_quietly.
Qed.

End BackupFacts.

(** The registered backup has no file: the read fails with ENOENT. *)
Lemma read_failure_is_logged_and_overwritten_witness :
  let w := Sample.registered_only in
  let file := "/tmp/state_backups/backup_1700000000000.json" in
  let result :=
    @Backup.createStateBackupSync Sample.posix "fresh" 5 (Some "k1") Sample.update w in
  Backup.backups w !! "k1" = Some 1700000000000%Z
  /\ (@Backup.read_existing Sample.posix file w).1 = inl (Backup.ENOENT file)
  /\ result.1 = "k1"
  /\ Backup.logged result.2
     = [{| Backup.level := "warn";
           Backup.message := "failed to read existing backup data";
           Backup.meta := Backup.ENOENT file |}]
  /\ Backup.files (Backup.fs result.2) !! file = Some (Sample.stringify Sample.update).
Proof.
  pose proof (@read_failure_is_logged_and_overwritten Sample.posix "fresh" 5 "k1"
                1700000000000%Z Sample.update Sample.registered_only
                (Backup.ENOENT "/tmp/state_backups/backup_1700000000000.json")
                ltac:(vm_compute; reflexivity) ltac:(vm_compute; reflexivity))
    as (Hid & Hlog & _ & Hfiles & _).
  cbv zeta. split; [vm_compute; reflexivity|]. split; [vm_compute; reflexivity|].
  split; [exact Hid|]. split; [exact Hlog|].
  rewrite Hfiles. vm_compute. reflexivity.
Defined.

(** The stored document [{a:1,b:2}] merged with [{b:3,c:4}], and a call
    without an id. *)
Lemma backup_data_is_shallow_merge_witness :
  let file := "/tmp/state_backups/backup_1700000000000.json" in
  (exists merged,
     (@Backup.createStateBackupSync Sample.posix "fresh" 5 (Some "k1")
        Sample.update Sample.with_file).1 = "k1"
     /\ Backup.files (Backup.fs (@Backup.createStateBackupSync Sample.posix "fresh" 5
                                   (Some "k1") Sample.update Sample.with_file).2) !! file
        = Some (Sample.stringify (Backup.VObj merged))
     /\ merged !! "a" = Some (Backup.VNum 1)
     /\ merged !! "b" = Some (Backup.VNum 3)
     /\ merged !! "c" = Some (Backup.VNum 4))
  /\ (@Backup.createStateBackupSync Sample.posix "fresh" 5 None
        Sample.update Sample.with_file).1 = "fresh".
Proof.
  destruct (@backup_data_is_shallow_merge Sample.posix "fresh" 5 Sample.update
              Sample.with_file) as [Hmerge Hfresh].
  split.
  - destruct (Hmerge "k1" 1700000000000%Z (Sample.stringify Sample.stored) Sample.stored
                ltac:(vm_compute; reflexivity) ltac:(vm_compute; reflexivity)
                ltac:(vm_compute; reflexivity)) as (merged & Hcall & Hkeys).
    exists merged. rewrite Hcall. split; [reflexivity|].
    split; [apply lookup_insert_eq|].
    rewrite !Hkeys. vm_compute. done.
  - exact (proj1 (Hfresh None (or_introl eq_refl))).
Defined.

(** C8: handed the unregistered id ["constructor"], which names a member
    every plain object inherits, createStateBackupSync takes the id as
    registered: the file it writes under the backup directory is named
    after the function [Object], and the id it returns has no registration
    time from which a name could be derived. *)
Theorem inherited_id_names_the_backup_file :
  let file := "/tmp/state_backups/backup_function Object() { [native code] }.json" in
  let r := @Backup.createStateBackupSync Sample.posix "fresh" 5 (Some "constructor")
             Sample.update Sample.registered_only in
  Backup.backups Sample.registered_only !! "constructor" = None
  /\ r.1 = "constructor"
  /\ Backup.backups r.2 !! r.1 = None
  /\ Backup.writes (Backup.journal r.2) = [file]
  /\ Backup.files (Backup.fs r.2) !! file = Some (Sample.stringify Sample.update).
Proof. vm_compute. repeat split. Qed.

(** C10: handed the unregistered id ["constructor"], createStateBackupSync
    generates and registers no fresh id: it returns the id it was given,
    logs the failed read of a file named after the function [Object], and
    a second call with that id merges into the file of the first. *)
Theorem inherited_id_gets_no_fresh_id :
  let file := "/tmp/state_backups/backup_function Object() { [native code] }.json" in
  let first := @Backup.createStateBackupSync Sample.posix "fresh" 5 (Some "constructor")
                 Sample.stored Sample.registered_only in
  let second := @Backup.createStateBackupSync Sample.posix "fresh2" 9 (Some first.1)
                  Sample.update first.2 in
  Backup.backups Sample.registered_only !! "constructor" = None
  /\ first.1 = "constructor"
  /\ Backup.backups first.2 = Backup.backups Sample.registered_only
  /\ Backup.logged first.2
     = [{| Backup.level := "warn";
           Backup.message := "failed to read existing backup data";
           Backup.meta := Backup.ENOENT file |}]
  /\ second.1 = "constructor"
  /\ Backup.backups second.2 = Backup.backups Sample.registered_only
  /\ Backup.files (Backup.fs second.2) !! file
     = Some (Sample.stringify
               (Backup.VObj {[ "a" := Backup.VNum 1; "b" := Backup.VNum 3;
                               "c" := Backup.VNum 4 ]})).
Proof. vm_compute. repeat split. Qed.

(** ** The table: in-flight guard *)

Section GuardFacts.
Import Table.
Context {R V : Type} `{JsValue V}.
Implicit Types (c : @Component R V) (props : IProps R V).

(** A call made while a run is in flight only replaces the queued props. *)
Lemma update_while_busy props force c :
  mUpdateInProgress c = true ->
  updateCalculatedValues props force c
  = (ResolvedNow [],
     {| mLastUpdateState := mLastUpdateState c; mNextUpdateState := Some props;
        mUpdateInProgress := true; calculatedValues := calculatedValues c;
        inflight := inflight c; started := started c |}).
Proof. unfold updateCalculatedValues. intros ->. reflexivity. Qed.

Lemma update_all_while_busy (calls : list (IProps R V * option string)) : forall c,
  mUpdateInProgress c = true ->
  update_all calls c
  = {| mLastUpdateState := mLastUpdateState c;
       mNextUpdateState := from_option (fun call => Some call.1) (mNextUpdateState c)
                                       (last calls);
       mUpdateInProgress := true; calculatedValues := calculatedValues c;
       inflight := inflight c; started := started c |}.
Proof.
  induction calls as [|call calls IH]; intros c Hbusy.
  - destruct c; simpl in *; subst; reflexivity.
  - change (update_all (call :: calls) c)
      with (update_all calls (updateCalculatedValues call.1 call.2 c).2).
    rewrite (update_while_busy _ _ _ Hbusy). simpl. rewrite IH by reflexivity. simpl.
    f_equal. rewrite last_cons. destruct (last calls); reflexivity.
Qed.

Lemma update_when_idle props force c :
  mUpdateInProgress c = false ->
  updateCalculatedValues props force c
  = (Pending,
     {| mLastUpdateState := mLastUpdateState c; mNextUpdateState := Some props;
        mUpdateInProgress := true; calculatedValues := calculatedValues c;
        inflight :=
          Some {| run_props := props; run_force := force;
                  run_result := recalculate (mLastUpdateState c) (calculatedValues c)
                                            props force |};
        started := started c ++ [(props, force)] |}).
Proof. unfold updateCalculatedValues. intros ->. reflexivity. Qed.


End GuardFacts.

(** ** The table: recomputation of derived values *)

Section RecalcFacts.
Import Table.
Context {R V : Type} `{JsValue V}.
Implicit Types (attrs : list (ITableAttribute R V)) (a : ITableAttribute R V).
Implicit Types (last : option (IProps R V)) (cached : option (ILookupCalculated V)).
Implicit Types (props : IProps R V) (force : option string).
Implicit Types (values : gmap string (gmap string V)) (delta : gmap string V).
Implicit Types (data oldData : Data R) (st : @Recalc V) (row : RowData R).

(** The guard, spelled out. *)
Lemma skips_calc_spec force oldData rowId row a :
  skips_calc force oldData rowId row a = true <->
  isVolatile a = false
  /\ Some (id a) <> force
  /\ exists old, data_get rowId oldData = Some old /\ row_ref old = row_ref row.
Proof.
  unfold skips_calc, same_row.
  rewrite !andb_true_iff, negb_true_iff, bool_decide_eq_true.
  destruct (data_get rowId oldData) as [old|].
  - rewrite bool_decide_eq_true. split.
    + intros [[? ?] ?]. eauto 6.
    + intros (? & ? & old' & [= <-] & ?). done.
  - split; [intros [_ [=]] | intros (_ & _ & ? & [=] & _)].
Qed.

Lemma row_delta_cons force oldData old rowId row a attrs delta :
  row_delta force oldData old rowId row (a :: attrs) delta
  = row_delta force oldData old rowId row attrs
      (if changed_cell force oldData old rowId row a
       then <[id a := calc a (row_raw row)]> delta else delta).
Proof. reflexivity. Qed.

(** One step of the inner loop. *)
Lemma recalc_cell_spec force oldData rowId row delta st a :
  let out := recalc_cell force oldData rowId row (delta, st) a in
  out.1 = (if changed_cell force oldData (newValues st !! rowId) rowId row a
           then <[id a := calc a (row_raw row)]> delta else delta)
  /\ newValues out.2 = newValues st
  /\ calc_calls out.2
     = calc_calls st
       ++ (if skips_calc force oldData rowId row a then [] else [(rowId, id a)]).
Proof.
  unfold recalc_cell, changed_cell, getSafe.
  destruct (skips_calc force oldData rowId row a); simpl.
  - by rewrite (right_id_L [] (++)).
  - destruct (isEqual _ _); done.
Qed.

(** The inner loop accumulates the row's delta and the calls; it leaves
    [newValues] alone. *)
Lemma recalc_cells_spec force oldData rowId row attrs : forall delta st,
  let out := foldl (recalc_cell force oldData rowId row) (delta, st) attrs in
  out.1 = row_delta force oldData (newValues st !! rowId) rowId row attrs delta
  /\ newValues out.2 = newValues st
  /\ calc_calls out.2
     = calc_calls st
       ++ ((fun a => (rowId, id a))
             <$> filter (fun a => skips_calc force oldData rowId row a = false) attrs).
Proof.
  induction attrs as [|a attrs IH]; intros delta st.
  - simpl. by rewrite (right_id_L [] (++)).
  - cbn [foldl]. cbv zeta.
    destruct (recalc_cell_spec force oldData rowId row delta st a) as (Hd & Hv & Hc).
    destruct (recalc_cell force oldData rowId row (delta, st) a) as [d1 st1].
    cbn [fst snd] in Hd, Hv, Hc.
    destruct (IH d1 st1) as (Hd' & Hv' & Hc').
    rewrite Hd', Hv', Hc', Hv, Hc, Hd, row_delta_cons, filter_cons, <- (assoc_L (++)).
    repeat split.
    destruct (skips_calc force oldData rowId row a).
    + by rewrite decide_False.
    + by rewrite decide_True.
Qed.

Lemma row_delta_other force oldData old rowId row attrs k : forall delta,
  k ∉ id <$> attrs ->
  row_delta force oldData old rowId row attrs delta !! k = delta !! k.
Proof.
  induction attrs as [|a attrs IH]; intros delta Hk; [reflexivity|].
  rewrite fmap_cons, not_elem_of_cons in Hk. destruct Hk as [Hne Hk].
  rewrite row_delta_cons, IH by done.
  destruct (changed_cell _ _ _ _ _ a); [|done].
  by rewrite lookup_insert_ne.
Qed.

(** With distinct attribute ids, the delta holds exactly the changed
    cells. *)
Lemma row_delta_lookup force oldData old rowId row attrs a : forall delta,
  NoDup (id <$> attrs) -> a ∈ attrs ->
  row_delta force oldData old rowId row attrs delta !! id a
  = if changed_cell force oldData old rowId row a
    then Some (calc a (row_raw row)) else delta !! id a.
Proof.
  induction attrs as [|b attrs IH]; intros delta Hnd Hin; [by apply elem_of_nil in Hin|].
  rewrite fmap_cons in Hnd. apply NoDup_cons in Hnd as [Hb Hnd].
  rewrite row_delta_cons.
  apply elem_of_cons in Hin as [-> | Hin].
  - rewrite row_delta_other by done.
    destruct (changed_cell _ _ _ _ _ b); [apply lookup_insert_eq | done].
  - rewrite IH by done.
    destruct (changed_cell _ _ _ _ _ a); [done|].
    destruct (changed_cell _ _ _ _ _ b); [|done].
    apply lookup_insert_ne. intros Heq. apply Hb. rewrite Heq.
    by apply list_elem_of_fmap_2.
Qed.

Lemma merge_delta_lookup rowId delta values :
  merged rowId delta values !! rowId
  = if decide (delta = ∅) then values !! rowId
    else Some (<["__id" := js_string rowId]> delta ∪ default ∅ (values !! rowId)).
Proof.
  unfold merged. destruct (decide (delta = ∅)); [done|].
  destruct (values !! rowId) eqn:Hrow; rewrite lookup_insert_eq; simpl; [done|].
  by rewrite (right_id_L ∅ (∪)).
Qed.

Lemma merge_delta_lookup_ne rowId delta values r :
  rowId <> r -> merged rowId delta values !! r = values !! r.
Proof.
  intros Hne. unfold merged. destruct (decide (delta = ∅)); [done|].
  destruct (values !! rowId); by rewrite lookup_insert_ne.
Qed.

Lemma recalc_row_spec force oldData attrs st rowId row :
  let out := row_done force oldData attrs st (rowId, row) in
  newValues out
  = merged rowId
      (row_delta force oldData (newValues st !! rowId) rowId row attrs ∅) (newValues st)
  /\ calc_calls out
     = calc_calls st
       ++ ((fun a => (rowId, id a))
             <$> filter (fun a => skips_calc force oldData rowId row a = false) attrs).
Proof.
  unfold row_done.
  destruct (recalc_cells_spec force oldData rowId row attrs ∅ st) as (Hd & Hv & Hc).
  destruct (foldl _ _ attrs) as [delta st']. simpl in *. by rewrite Hd, Hv, Hc.
Qed.

Lemma data_get_None rowId data : rowId ∉ keys data -> data_get rowId data = None.
Proof.
  induction data as [|[k row] data IH]; [done|]. unfold keys. rewrite fmap_cons.
  intros [Hne Hin]%not_elem_of_cons. simpl in *. rewrite decide_False by done. by apply IH.
Qed.

Lemma data_get_Some rowId row data :
  NoDup (keys data) -> (rowId, row) ∈ data -> data_get rowId data = Some row.
Proof.
  induction data as [|[k r] data IH]; intros Hnd Hin; [by apply elem_of_nil in Hin|].
  unfold keys in Hnd. rewrite fmap_cons in Hnd. apply NoDup_cons in Hnd as [Hk Hnd].
  simpl in *. apply elem_of_cons in Hin as [[= -> ->] | Hin].
  - by rewrite decide_True.
  - rewrite decide_False; [by apply IH|].
    intros ->. apply Hk. by apply (list_elem_of_fmap_2 fst _ (rowId, row)).
Qed.

(** The outer loop, seen from one row id. *)
Lemma recalc_rows_lookup force oldData attrs data r : forall st,
  NoDup (keys data) ->
  newValues (foldl (row_done force oldData attrs) st data) !! r
  = match data_get r data with
    | Some row =>
        merged r (row_delta force oldData (newValues st !! r) r row attrs ∅)
                    (newValues st) !! r
    | None => newValues st !! r
    end.
Proof.
  induction data as [|[k row] data IH]; intros st Hnd; [done|].
  unfold keys in Hnd. rewrite fmap_cons in Hnd. apply NoDup_cons in Hnd as [Hk Hnd].
  simpl in *. rewrite IH by done.
  destruct (recalc_row_spec force oldData attrs st k row) as (Hv & _).
  simpl in Hv. rewrite Hv.
  destruct (decide (k = r)) as [-> | Hne].
  - by rewrite (data_get_None r data Hk).
  - rewrite !(merge_delta_lookup_ne k _ _ r Hne).
    destruct (data_get r data); [|done].
    by rewrite !merge_delta_lookup, !(merge_delta_lookup_ne k _ _ r Hne).
Qed.

Lemma recalc_rows_calls force oldData attrs data : forall st,
  calc_calls (foldl (row_done force oldData attrs) st data)
  = calc_calls st ++ expected_calls force oldData attrs data.
Proof.
  unfold expected_calls.
  induction data as [|[k row] data IH]; intros st; simpl.
  - by rewrite (right_id_L [] (++)).
  - rewrite IH. destruct (recalc_row_spec force oldData attrs st k row) as (_ & Hc).
    simpl in Hc. rewrite Hc, <- (assoc_L (++)). done.
Qed.

Lemma drop_removed_lookup oldData data values r :
  is_Some (data_get r data) -> drop_removed oldData data values !! r = values !! r.
Proof.
  intros Hr. unfold drop_removed. generalize (keys oldData). intros ks.
  revert values. induction ks as [|k ks IH]; intros values; [done|].
  cbn [foldl]. rewrite IH. unfold data_is_undefined.
  destruct (data_get k data) eqn:Hk; [done|].
  destruct (negb (Js.inherited k)); [|done].
  apply lookup_delete_ne. intros ->. rewrite Hk in Hr. by destruct Hr.
Qed.

Lemma id_determines_attribute attrs a b :
  NoDup (id <$> attrs) -> a ∈ attrs -> b ∈ attrs -> id a = id b -> a = b.
Proof.
  induction attrs as [|x attrs IH]; intros Hnd Ha Hb Heq; [by apply elem_of_nil in Ha|].
  rewrite fmap_cons in Hnd. apply NoDup_cons in Hnd as [Hx Hnd].
  apply elem_of_cons in Ha as [-> | Ha]; apply elem_of_cons in Hb as [-> | Hb].
  - done.
  - exfalso. apply Hx. rewrite Heq. by apply list_elem_of_fmap_2.
  - exfalso. apply Hx. rewrite <- Heq. by apply list_elem_of_fmap_2.
  - by apply IH.
Qed.

Lemma elem_of_expected_calls force oldData attrs data rowId k :
  (rowId, k) ∈ expected_calls force oldData attrs data <->
  exists row a, (rowId, row) ∈ data /\ a ∈ attrs /\ id a = k
                /\ skips_calc force oldData rowId row a = false.
Proof.
  unfold expected_calls. rewrite list_elem_of_bind. split.
  - intros ([r row] & Hin & Hentry). simpl in Hin.
    apply list_elem_of_fmap in Hin as (a & [= -> ->] & Ha).
    apply list_elem_of_filter in Ha as [Hskip Ha]. eauto 8.
  - intros (row & a & Hentry & Ha & <- & Hskip). exists (rowId, row).
    split; [|done]. simpl. apply list_elem_of_fmap. exists a. split; [done|].
    by apply list_elem_of_filter.
Qed.

(** The cell of the new cache for a row and an attribute of the run. *)
Lemma recalculate_cell last cached props force rowId row a :
  NoDup (keys (data props)) -> NoDup (id <$> objects props) ->
  (rowId, row) ∈ data props -> a ∈ objects props -> id a <> "__id" ->
  let old := default ∅ cached in
  newValues (completed last cached props force) !! rowId ≫= (.!! id a)
  = if changed_cell force (from_option data [] last) (old !! rowId) rowId row a
    then Some (calc a (row_raw row))
    else old !! rowId ≫= (.!! id a).
Proof.
  intros Hrows Hids Hrow Ha Hid old. unfold completed. cbn [newValues].
  pose proof (data_get_Some _ _ _ Hrows Hrow) as Hget.
  rewrite drop_removed_lookup by (rewrite Hget; eauto).
  rewrite recalc_rows_lookup by done. rewrite Hget. cbn [newValues]. fold old.
  rewrite merge_delta_lookup.
  pose proof (row_delta_lookup force (from_option data [] last) (old !! rowId)
                rowId row (objects props) a ∅ Hids Ha) as Hdelta.
  rewrite lookup_empty in Hdelta.
  set (delta := row_delta _ _ _ _ _ _ _) in *.
  destruct (changed_cell _ _ _ _ _ a).
  - rewrite decide_False by (intros Hempty; rewrite Hempty, lookup_empty in Hdelta; done).
    simpl. apply lookup_union_Some_l. by rewrite lookup_insert_ne.
  - destruct (decide (delta = ∅)); [done|]. simpl.
    rewrite lookup_union_r by (by rewrite lookup_insert_ne).
    destruct (old !! rowId); [done | apply lookup_empty].
Qed.

(** A run in which no [update] throws, cell by cell. *)
Lemma completed_skips_unchanged_sources
    (last : option (IProps R V)) (cached : option (ILookupCalculated V))
    (props : IProps R V) (force : option string) rowId row a :
  NoDup (keys (data props)) -> NoDup (id <$> objects props) ->
  (rowId, row) ∈ data props -> a ∈ objects props -> id a <> "__id" ->
  let out := completed last cached props force in
  let cell (values : ILookupCalculated V) := values !! rowId ≫= (.!! id a) in
  let unchanged :=
    isVolatile a = false /\ Some (id a) <> force
    /\ exists old, data_get rowId (from_option data [] last) = Some old
                   /\ row_ref old = row_ref row in
  (unchanged ->
     ((rowId, id a) ∉ calc_calls out)
     /\ cell (newValues out) = cell (default ∅ cached))
  /\ (~ unchanged ->
      (rowId, id a) ∈ calc_calls out
      /\ (calc a (row_raw row) <> getSafe (default ∅ cached) rowId (id a) ->
          cell (newValues out) = Some (calc a (row_raw row)))
      /\ (calc a (row_raw row) = getSafe (default ∅ cached) rowId (id a) ->
          cell (newValues out) = cell (default ∅ cached))).
Proof.
  intros Hrows Hids Hrow Ha Hid out cell unchanged.
  pose proof (recalculate_cell last cached props force rowId row a
                Hrows Hids Hrow Ha Hid) as Hcell.
  cbv zeta in Hcell. fold out in Hcell. fold (cell (newValues out)) in Hcell.
  fold (cell (default ∅ cached)) in Hcell.
  assert (Hcalls : (rowId, id a) ∈ calc_calls out
                   <-> skips_calc force (from_option data [] last) rowId row a = false).
  { subst out. unfold completed. cbn [calc_calls].
    rewrite recalc_rows_calls. cbn [calc_calls app].
    rewrite elem_of_expected_calls. split.
    - intros (row' & a' & Hrow' & Ha' & Heq & Hskip).
      pose proof (data_get_Some _ _ _ Hrows Hrow) as Hget.
      rewrite (data_get_Some _ _ _ Hrows Hrow') in Hget. injection Hget as ->.
      by rewrite <- (id_determines_attribute _ _ _ Hids Ha' Ha Heq).
    - intros Hskip. eauto 8. }
  unfold changed_cell, isEqual in Hcell.
  fold (getSafe (default ∅ cached) rowId (id a)) in Hcell.
  pose proof (skips_calc_spec force (from_option data [] last) rowId row a) as Hspec.
  fold unchanged in Hspec.
  destruct (skips_calc force (from_option data [] last) rowId row a) eqn:Hskip.
  - split; [|intros Hnot; exfalso; apply Hnot, Hspec; done].
    intros _. split; [|exact Hcell].
    rewrite Hcalls. done.
  - split; [intros Hu; apply Hspec in Hu; done|].
    intros _. split; [by apply Hcalls|]. simpl in Hcell. split; intros Hcmp.
    + by rewrite bool_decide_eq_false_2 in Hcell.
    + by rewrite bool_decide_eq_true_2 in Hcell.
Qed.

(** *** Runs in which [update] throws, and runs in which it does not *)

Lemma merge_delta_Some rowId delta values values' :
  merge_delta rowId delta values = Some values' -> values' = merged rowId delta values.
Proof.
  unfold merge_delta, merged, Js.get. destruct (decide (delta = ∅)); [congruence|].
  destruct (values !! rowId); [congruence|].
  destruct (Js.inherited rowId); [discriminate | congruence].
Qed.

(** [update] throws exactly for a changed row that has no entry and whose
    id names an inherited member. *)
Lemma merge_delta_None rowId delta values :
  merge_delta rowId delta values = None <->
  delta <> ∅ /\ values !! rowId = None /\ Js.inherited rowId = true.
Proof.
  unfold merge_delta, Js.get. destruct (decide (delta = ∅)) as [Hd|Hd].
  - split; [discriminate | by intros [? _]].
  - destruct (values !! rowId); [split; [discriminate | by intros (_ & ? & _)]|].
    destruct (Js.inherited rowId); [done|]. split; [discriminate | by intros (_ & _ & ?)].
Qed.

Lemma recalc_cells_rejected force oldData rowId row attrs : forall delta st,
  rejected (foldl (recalc_cell force oldData rowId row) (delta, st) attrs).2 = rejected st.
Proof.
  induction attrs as [|a attrs IH]; intros delta st; [done|]. cbn [foldl].
  destruct (recalc_cell force oldData rowId row (delta, st) a) as [d1 st1] eqn:Hstep.
  rewrite IH. unfold recalc_cell in Hstep.
  destruct (skips_calc force oldData rowId row a); [by injection Hstep as <- <-|].
  destruct (isEqual _ _); by injection Hstep as <- <-.
Qed.

(** Where no [update] throws, a row is handled as [row_done] says. *)
Lemma recalc_row_done force oldData attrs st entry :
  rejected (recalc_row force oldData attrs st entry) = false ->
  recalc_row force oldData attrs st entry = row_done force oldData attrs st entry.
Proof.
  destruct entry as [rowId row]. unfold recalc_row, row_done.
  destruct (foldl _ _ attrs) as [delta st'].
  destruct (merge_delta rowId delta (newValues st')) as [values|] eqn:Hmerge; [|done].
  intros _. by rewrite (merge_delta_Some _ _ _ _ Hmerge).
Qed.

(** A rejection stays. *)
Lemma recalc_row_rejected force oldData attrs st entry :
  rejected st = true -> rejected (recalc_row force oldData attrs st entry) = true.
Proof.
  destruct entry as [rowId row]. unfold recalc_row. intros Hst.
  pose proof (recalc_cells_rejected force oldData rowId row attrs ∅ st) as Hr.
  destruct (foldl _ _ attrs) as [delta st']. cbn [snd] in Hr.
  destruct (merge_delta _ _ _); cbn [rejected]; congruence.
Qed.

Lemma recalc_rows_rejected force oldData attrs data : forall st,
  rejected st = true -> rejected (foldl (recalc_row force oldData attrs) st data) = true.
Proof.
  induction data as [|entry data IH]; intros st Hst; [done|]. cbn [foldl].
  by apply IH, recalc_row_rejected.
Qed.

Lemma recalc_rows_done force oldData attrs data : forall st,
  rejected (foldl (recalc_row force oldData attrs) st data) = false ->
  foldl (recalc_row force oldData attrs) st data
  = foldl (row_done force oldData attrs) st data.
Proof.
  induction data as [|entry data IH]; intros st Hok; [done|]. cbn [foldl] in Hok |- *.
  destruct (rejected (recalc_row force oldData attrs st entry)) eqn:Hstep.
  - by rewrite recalc_rows_rejected in Hok.
  - rewrite <- (recalc_row_done _ _ _ _ _ Hstep). by apply IH.
Qed.

(** A run that is not rejected is the run that [completed] describes. *)
Lemma recalculate_completed last cached props force :
  rejected (recalculate last cached props force) = false ->
  recalculate last cached props force = completed last cached props force.
Proof.
  unfold recalculate, completed. cbn [rejected]. intros Hok.
  rewrite (recalc_rows_done _ _ _ _ _ Hok) in Hok |- *. by rewrite Hok.
Qed.

Lemma recalc_row_ordinary force oldData attrs st rowId row :
  Js.inherited rowId = false ->
  recalc_row force oldData attrs st (rowId, row) = row_done force oldData attrs st (rowId, row).
Proof.
  intros Hord. unfold recalc_row, row_done.
  destruct (foldl _ _ attrs) as [delta st'].
  destruct (merge_delta rowId delta (newValues st')) as [values|] eqn:Hmerge.
  - by rewrite (merge_delta_Some _ _ _ _ Hmerge).
  - apply merge_delta_None in Hmerge as (_ & _ & Hinh). congruence.
Qed.

Lemma recalc_rows_ordinary force oldData attrs data : forall st,
  Forall (fun k => Js.inherited k = false) (keys data) ->
  foldl (recalc_row force oldData attrs) st data
  = foldl (row_done force oldData attrs) st data.
Proof.
  induction data as [|[k row] data IH]; intros st Hord; [done|].
  unfold keys in Hord. rewrite fmap_cons in Hord. apply Forall_cons in Hord as [Hk Hord].
  cbn [foldl]. rewrite recalc_row_ordinary by done. by apply IH.
Qed.

Lemma row_done_rejected force oldData attrs st entry :
  rejected (row_done force oldData attrs st entry) = rejected st.
Proof.
  destruct entry as [rowId row]. unfold row_done.
  pose proof (recalc_cells_rejected force oldData rowId row attrs ∅ st) as Hr.
  by destruct (foldl _ _ attrs) as [delta st'].
Qed.

Lemma rows_done_rejected force oldData attrs data : forall st,
  rejected (foldl (row_done force oldData attrs) st data) = rejected st.
Proof.
  induction data as [|entry data IH]; intros st; [done|]. cbn [foldl].
  by rewrite IH, row_done_rejected.
Qed.

Lemma completed_not_rejected last cached props force :
  rejected (completed last cached props force) = false.
Proof. unfold completed. cbn [rejected]. by rewrite rows_done_rejected. Qed.

(** Where no row id names an inherited member, no [update] throws. *)
Lemma ordinary_rows_complete last cached props force :
  Forall (fun k => Js.inherited k = false) (keys (data props)) ->
  recalculate last cached props force = completed last cached props force.
Proof.
  intros Hord. apply recalculate_completed.
  unfold recalculate. cbn [rejected].
  rewrite recalc_rows_ordinary by done. by rewrite rows_done_rejected.
Qed.

(** The calls of [calc] are made whether or not an [update] throws. *)
Lemma recalc_row_calls force oldData attrs st rowId row :
  calc_calls (recalc_row force oldData attrs st (rowId, row))
  = calc_calls (row_done force oldData attrs st (rowId, row)).
Proof.
  unfold recalc_row, row_done. destruct (foldl _ _ attrs) as [delta st'].
  by destruct (merge_delta _ _ _).
Qed.

Lemma recalculate_calls last cached props force :
  calc_calls (recalculate last cached props force)
  = expected_calls force (from_option data [] last) (objects props) (data props).
Proof.
  unfold recalculate. cbn [calc_calls].
  match goal with |- context [foldl ?f ?start (data props)] =>
    change (calc_calls (foldl f start (data props))
            = calc_calls start ++ expected_calls force (from_option data [] last)
                                    (objects props) (data props));
    generalize start end.
  generalize (data props). intros rows. unfold expected_calls.
  induction rows as [|[k row] rows IH]; intros st.
  - cbn [foldl mbind list_bind]. by rewrite (right_id_L [] (++)).
  - cbn [foldl]. rewrite IH, recalc_row_calls.
    destruct (recalc_row_spec force (from_option data [] last) (objects props) st k row)
      as (_ & Hc).
    cbv zeta in Hc. rewrite Hc, <- (assoc_L (++)). done.
Qed.


End RecalcFacts.

(** ** The table: row order *)

Section SortFacts.
Import Table.
Context {A : Type}.
Implicit Types (compare : A -> A -> Z) (l : list A).

Lemma sort_insert_Permutation compare x l : sort_insert compare x l ≡ₚ x :: l.
Proof.
  induction l as [|y l IH]; simpl; [done|].
  case_bool_decide; [|done]. rewrite IH. apply Permutation_swap.
Qed.

Lemma insertion_sort_Permutation compare l : insertion_sort compare l ≡ₚ l.
Proof.
  induction l as [|x l IH]; simpl; [done|].
  fold (insertion_sort compare l). by rewrite sort_insert_Permutation, IH.
Qed.

(** Reading the three properties of a consistent comparator. *)
Lemma consistent_on_flip compare l x y :
  consistent_on compare l -> x ∈ l -> y ∈ l ->
  (0 < compare x y)%Z <-> (compare y x < 0)%Z.
Proof.
  unfold consistent_on. rewrite Forall_forall. intros Hc Hx Hy.
  specialize (Hc x Hx). rewrite Forall_forall in Hc. by destruct (Hc y Hy).
Qed.

Lemma consistent_on_trans compare l x y z :
  consistent_on compare l -> x ∈ l -> y ∈ l -> z ∈ l ->
  (compare x y <= 0)%Z -> (compare y z <= 0)%Z -> (compare x z <= 0)%Z.
Proof.
  unfold consistent_on. rewrite Forall_forall. intros Hc Hx Hy Hz.
  specialize (Hc x Hx). rewrite Forall_forall in Hc.
  destruct (Hc y Hy) as [_ Ht]. rewrite Forall_forall in Ht. by apply Ht.
Qed.

Lemma consistent_on_tie_sym compare l x y :
  consistent_on compare l -> x ∈ l -> y ∈ l ->
  compare x y = 0%Z -> compare y x = 0%Z.
Proof.
  intros Hc Hx Hy Hxy.
  pose proof (consistent_on_flip compare l x y Hc Hx Hy).
  pose proof (consistent_on_flip compare l y x Hc Hy Hx). lia.
Qed.

Lemma sort_insert_sorted compare full x l :
  consistent_on compare full -> x ∈ full -> l ⊆ full ->
  StronglySorted (fun a b => (compare a b <= 0)%Z) l ->
  StronglySorted (fun a b => (compare a b <= 0)%Z) (sort_insert compare x l).
Proof.
  intros Hc Hx. induction l as [|y l IH]; intros Hsub Hsorted; simpl.
  - repeat constructor.
  - apply StronglySorted_inv in Hsorted as [Hl Hy].
    assert (y ∈ full) as Hyin by (apply Hsub; left).
    assert (l ⊆ full) as Hlsub by (intros z Hz; apply Hsub; by right).
    case_bool_decide as Hgt.
    + constructor; [by apply IH|].
      rewrite sort_insert_Permutation. constructor; [|done].
      apply (consistent_on_flip compare full x y Hc Hx Hyin) in Hgt. lia.
    + constructor; [by constructor|].
      constructor; [lia|]. rewrite Forall_forall in Hy |- *. intros z Hz.
      apply (consistent_on_trans compare full x y z); auto. lia.
Qed.

Lemma insertion_sort_sorted compare l :
  consistent_on compare l ->
  StronglySorted (fun a b => (compare a b <= 0)%Z) (insertion_sort compare l).
Proof.
  intros Hc. assert (Hsub : l ⊆ l) by done. revert Hsub.
  generalize l at 1 3. intros part.
  induction part as [|x part IH]; intros Hsub; simpl; [constructor|].
  fold (insertion_sort compare part).
  apply (sort_insert_sorted compare l); auto.
  - apply Hsub. left.
  - intros z Hz. apply Hsub. right.
    by rewrite <- (insertion_sort_Permutation compare part).
  - apply IH. intros z Hz. apply Hsub. by right.
Qed.

(** An element that moves only past elements outside [P] leaves the
    order of the members of [P] as it was. *)
Lemma filter_sort_insert (P : A -> Prop) `{!forall a, Decision (P a)} compare x l :
  (P x -> forall y, y ∈ l -> (0 < compare x y)%Z -> ~ P y) ->
  filter P (sort_insert compare x l) = filter P (x :: l).
Proof.
  induction l as [|y l IH]; intros Hpast; simpl; [done|].
  case_bool_decide as Hgt; [|done].
  rewrite filter_cons, IH by (intros Hx z Hz; apply Hpast; [done | by right]).
  rewrite !filter_cons.
  destruct (decide (P x)) as [Hx|Hx]; [|done].
  destruct (decide (P y)) as [Hy|Hy]; [|done].
  exfalso. by apply (Hpast Hx y); [left | |].
Qed.

Lemma insertion_sort_stable compare l x :
  consistent_on compare l -> x ∈ l ->
  filter (fun y => compare x y = 0%Z) (insertion_sort compare l)
  = filter (fun y => compare x y = 0%Z) l.
Proof.
  intros Hc Hx. assert (Hsub : l ⊆ l) by done. revert Hsub.
  generalize l at 1 3 4. intros part.
  induction part as [|a part IH]; intros Hsub; simpl; [done|].
  fold (insertion_sort compare part).
  assert (a ∈ l) as Ha by (apply Hsub; left).
  rewrite filter_sort_insert.
  - rewrite !filter_cons, IH; [done|]. intros z Hz. apply Hsub. by right.
  - intros Hxa y Hy Hgt Hxy.
    rewrite (insertion_sort_Permutation compare part) in Hy.
    assert (y ∈ l) as Hyl by (apply Hsub; by right).
    pose proof (consistent_on_tie_sym compare l x a Hc Hx Ha Hxa) as Hax.
    pose proof (consistent_on_trans compare l a x y Hc Ha Hx Hyl). lia.
Qed.

End SortFacts.

(** Sorting by insertion is a stable sort. *)
Lemma insertion_is_stable : @Table.stable_sort Table.insertion.
Proof.
  intros A compare l Hc. cbn [Table.array_sort Table.insertion].
  split; [apply insertion_sort_Permutation|].
  split; [by apply insertion_sort_sorted|].
  intros x Hx. by apply insertion_sort_stable.
Qed.


Section OrderFacts.
Import Table.
Context {R V : Type} `{JsValue V}.
Implicit Types (values : ILookupCalculated V) (data : Data R).
Implicit Types (attrs : list (ITableAttribute R V)) (a : ITableAttribute R V).

Lemma data_get_key data rowId : rowId ∈ keys data -> is_Some (data_get rowId data).
Proof.
  induction data as [|[k row] data IH]; unfold keys; [by intros ?%elem_of_nil|].
  rewrite fmap_cons. simpl. intros Hin. destruct (decide (k = rowId)); [eauto|].
  apply elem_of_cons in Hin as [-> | Hin]; [done | by apply IH].
Qed.

Lemma filter_all {B} (P : B -> Prop) `{!forall b, Decision (P b)} (l : list B) :
  Forall P l -> filter P l = l.
Proof.
  induction 1 as [|b l Hb _ IH]; [done|].
  by rewrite filter_cons, decide_True, IH.
Qed.

(** With a [sortFunc], the comparison looks at the calculated values
    only, whether or not the attribute has a [sortFuncRaw] too. *)
Lemma sortFunction_prefers_sortFunc values data locale a f lhsId rhsId :
  sortFunc a = Some f ->
  sortFunction values data locale a lhsId rhsId
  = f (cell values lhsId (id a)) (cell values rhsId (id a)) locale.
Proof. unfold sortFunction. intros ->. reflexivity. Qed.

(** Two neighbours in a filtered list are in the same order in the list. *)
Lemma filter_pair_order {B} (P : B -> Prop) `{!forall b, Decision (P b)}
    (l : list B) x y rest :
  filter P l = x :: y :: rest ->
  exists i j, i < j /\ l !! i = Some x /\ l !! j = Some y.
Proof.
  induction l as [|b l IH]; [done|]. rewrite filter_cons.
  destruct (decide (P b)) as [Hb|Hb].
  - intros [= -> Hrest].
    assert (y ∈ l) as [j Hj]%list_elem_of_lookup_1.
    { apply (list_elem_of_filter P l y). rewrite Hrest. left. }
    exists 0, (S j). split; [lia|]. done.
  - intros (i & j & Hij & Hi & Hj)%IH. exists (S i), (S j). split; [lia|]. done.
Qed.

(** C4: the row order comes from one sort on one criterion.  Without a
    sort attribute the rows keep their key order.  With one, the rows for
    which the cache has values are sorted by the comparison of that
    attribute alone: its sortFunc on the calculated values even when it has
    a sortFuncRaw, which is used only in the absence of a sortFunc; where
    the attribute has no sortFuncRaw and a value is undefined, the row
    without a value goes first; descending order negates the comparison.
    When the engine's sort is stable and the comparison is consistent on
    those rows, the result holds the same rows, ordered by the comparison,
    and rows that tie under it keep the order of the keys. *)
Theorem sortedRows_stable_single_criterion `{Engine}
    values (attributeState : gmap string IAttributeState) attrs data (locale : string) :
  stable_sort ->
  let result := sortedRows values attributeState attrs data locale in
  (find_sortAttribute attributeState attrs = None -> result = keys data)
  /\ (forall a, find_sortAttribute attributeState attrs = Some a ->
      let compare :=
        row_compare values data locale a (is_descending attributeState a) in
      let ids := dataIds values data in
      let defined x := cell values x (id a) <> undefined in
      (forall f x y, sortFunc a = Some f ->
         sortFunction values data locale a x y
         = f (cell values x (id a)) (cell values y (id a)) locale)
      /\ (forall g x y, sortFunc a = None -> sortFuncRaw a = Some g ->
            sortFunction values data locale a x y
            = g (data_get x data) (data_get y data) locale)
      /\ (forall x y, sortFuncRaw a <> None \/ (defined x /\ defined y) ->
            row_compare values data locale a false x y
            = sortFunction values data locale a x y)
      /\ (forall x y, sortFuncRaw a = None -> ~ (defined x /\ defined y) ->
            row_compare values data locale a false x y
            = if decide (defined x) then 1%Z
              else if decide (defined y) then (-1)%Z else 0%Z)
      /\ (forall x y, row_compare values data locale a true x y
                      = (row_compare values data locale a false x y * -1)%Z)
      /\ (consistent_on compare ids ->
          result ≡ₚ ids
          /\ StronglySorted (fun x y => (compare x y <= 0)%Z) result
          /\ forall x, x ∈ ids ->
               filter (fun y => compare x y = 0%Z) result
               = filter (fun y => compare x y = 0%Z) ids)).
Proof.
  intros Hstable result. subst result. unfold sortedRows. split.
  - intros ->. apply filter_all, Forall_forall. intros k Hk. by apply data_get_key.
  - intros a ->. cbv zeta.
    split; [intros f x y Hf; by apply sortFunction_prefers_sortFunc|].
    split; [intros g x y Hf Hg; unfold sortFunction; by rewrite Hf, Hg|].
    split.
    { intros x y Hcond. unfold row_compare.
      destruct Hcond as [Hraw | [Hx Hy]].
      - by rewrite (bool_decide_eq_true_2 _ Hraw).
      - rewrite (bool_decide_eq_true_2 _ Hx), (bool_decide_eq_true_2 _ Hy).
        by rewrite orb_true_r. }
    split.
    { intros x y Hraw Hundef. unfold row_compare, undefCompare.
      rewrite bool_decide_eq_false_2 by (intros Hne; by apply Hne). cbn [orb].
      destruct (decide (cell values x (id a) <> undefined)) as [Hx|Hx].
      - rewrite (bool_decide_eq_true_2 _ Hx). cbn [andb].
        rewrite bool_decide_eq_false_2; [done|]. intros Hy. by apply Hundef.
      - rewrite (bool_decide_eq_false_2 _ Hx). cbn [andb].
        destruct (decide (cell values y (id a) <> undefined)) as [Hy|Hy].
        + by rewrite (bool_decide_eq_true_2 _ Hy).
        + by rewrite (bool_decide_eq_false_2 _ Hy). }
    split; [reflexivity|].
    intros Hc. exact (Hstable string _ _ Hc).
Qed.

End OrderFacts.

(** Rows ["a"] and ["b"] tie on their grade; the raw comparator of the
    attribute would put ["b"] first, the table keeps ["a"] first: by
    insertion the order is c, a, b, and on every engine whose sort is
    stable the ties are not in the order of the raw comparator. *)
Lemma sortedRows_ignores_raw_comparator :
  @Table.sortedRows Z Sample.Val _ Table.insertion
     Sample.grades Sample.by_grade [Sample.grade] Sample.graded "en"
    = ["c"; "a"; "b"]
  /\ forall engine : Table.Engine, @Table.stable_sort engine ->
       ~ Table.ties_broken_by_raw Sample.grades Sample.graded "en" Sample.grade
           (@Table.sortedRows Z Sample.Val _ engine
              Sample.grades Sample.by_grade [Sample.grade] Sample.graded "en").
Proof.
  split; [vm_compute; reflexivity|].
  intros engine Hstable Hspec.
  set (compare := Table.row_compare Sample.grades Sample.graded "en" Sample.grade false).
  assert (Hc : Table.consistent_on compare ["a"; "b"; "c"])
    by (unfold Table.consistent_on; by_evaluation).
  destruct (Hstable string compare ["a"; "b"; "c"] Hc) as (_ & _ & Hties).
  specialize (Hties "a" ltac:(left)).
  change (Table.sortedRows Sample.grades Sample.by_grade [Sample.grade] Sample.graded "en")
    with (Table.array_sort string compare ["a"; "b"; "c"]) in Hspec.
  assert (Hab : filter (fun y => compare "a" y = 0%Z) ["a"; "b"; "c"] = ["a"; "b"])
    by (vm_compute; reflexivity).
  rewrite Hab in Hties.
  apply filter_pair_order in Hties as (i & j & Hij & Hi & Hj).
  specialize (Hspec (fun a b _ => Sample.compare_raw a b) i j "a" "b" eq_refl Hij Hi Hj).
  assert (Sample.compare_raw (Table.data_get "a" Sample.graded)
            (Table.data_get "b" Sample.graded) <= 0)%Z as Hle.
  { apply Hspec. vm_compute. reflexivity. }
  vm_compute in Hle. by apply Hle.
Qed.

Lemma sortedRows_stable_single_criterion_witness :
  let compare :=
    Table.row_compare Sample.grades Sample.graded "en" Sample.grade
      (Table.is_descending Sample.by_grade Sample.grade) in
  let result :=
    @Table.sortedRows Z Sample.Val _ Table.insertion
      Sample.grades Sample.by_grade [Sample.grade] Sample.graded "en" in
  @Table.stable_sort Table.insertion
  /\ Table.find_sortAttribute Sample.by_grade [Sample.grade] = Some Sample.grade
  /\ Table.consistent_on compare ["a"; "b"; "c"]
  /\ result ≡ₚ ["a"; "b"; "c"]
  /\ StronglySorted (fun x y => (compare x y <= 0)%Z) result
  /\ filter (fun y => compare "a" y = 0%Z) result = ["a"; "b"].
Proof.
  assert (Hfind : Table.find_sortAttribute Sample.by_grade [Sample.grade]
                  = Some Sample.grade) by reflexivity.
  assert (Hcons : Table.consistent_on
                    (Table.row_compare Sample.grades Sample.graded "en" Sample.grade
                       (Table.is_descending Sample.by_grade Sample.grade))
                    ["a"; "b"; "c"]).
  { unfold Table.consistent_on. by_evaluation. }
  destruct (@sortedRows_stable_single_criterion Z Sample.Val _ Table.insertion
              Sample.grades Sample.by_grade [Sample.grade] Sample.graded "en"
              insertion_is_stable)
    as [_ Hsorted].
  destruct (Hsorted Sample.grade Hfind) as (_ & _ & _ & _ & _ & Hstable).
  destruct (Hstable Hcons) as (Hperm & Hss & Htie).
  cbv zeta. split; [exact insertion_is_stable|]. split; [exact Hfind|].
  split; [exact Hcons|]. split; [exact Hperm|].
  split; [exact Hss|].
  rewrite (Htie "a") by (vm_compute; repeat constructor). vm_compute. reflexivity.
Defined.




(** * Further properties *)

(** ** [lazy]: thunks that are not ready yet *)

Section LazyRetries.
Import Lazy.
Context {T W : Type}.
Implicit Types (func : @Thunk T W) (c : @Cell T) (w : W).

Lemma calls_app func n m : forall c w,
  calls func (n + m) c w
  = let '(rs1, c1, w1) := calls func n c w in
    let '(rs2, c2, w2) := calls func m c1 w1 in
    (rs1 ++ rs2, c2, w2).
Proof.
  induction n as [|n IH]; intros c w; simpl.
  - by destruct (calls func m c w) as [[? ?] ?].
  - destruct (call func c w) as [[r c1] w1]. rewrite IH.
    destruct (calls func n c1 w1) as [[rs1 c2] w2].
    by destruct (calls func m c2 w2) as [[? ?] ?].
Qed.

(** While the thunk yields [undefined], each call runs it again and
    moves the world on. *)
Lemma calls_while_undefined func k : forall c w,
  value c = None ->
  (forall i, i < k -> (func (Nat.iter i (fun w => (func w).2) w)).1 = None) ->
  calls func k c w
  = (replicate k None,
     {| value := None; invocations := k + invocations c |},
     Nat.iter k (fun w => (func w).2) w).
Proof.
  induction k as [|k IH]; intros c w Hc Hundef.
  - destruct c; simpl in *; by subst.
  - cbn [calls]. rewrite (call_empty _ _ _ Hc).
    pose proof (Hundef 0 ltac:(lia)) as H0. simpl in H0. rewrite H0.
    rewrite IH; [| reflexivity |].
    + rewrite (Nat.iter_succ_r k). cbn [replicate invocations fst snd].
      do 2 f_equal. f_equal. lia.
    + intros i Hi. specialize (Hundef (S i) ltac:(lia)).
      by rewrite Nat.iter_succ_r in Hundef.
Qed.

(** X1: a thunk that yields undefined on its first k runs and a value on
    the next one is run k+1 times by any k+1 or more calls: the first k
    calls return undefined, all later ones the value, and the thunk's
    effects stop after run k+1. *)
Theorem lazy_retries_until_defined func w k v n :
  let world i := Nat.iter i (fun w => (func w).2) w in
  (forall i, i < k -> (func (world i)).1 = None) ->
  (func (world k)).1 = Some v ->
  calls func (k + S n) lazy w
  = (replicate k None ++ replicate (S n) (Some v),
     {| value := Some v; invocations := S k |},
     world (S k)).
Proof.
  intros world Hundef Hdef. rewrite calls_app.
  rewrite (calls_while_undefined func k lazy w eq_refl Hundef).
  cbn [calls]. rewrite call_empty by reflexivity. fold (world k). rewrite Hdef.
  rewrite (calls_cached _ _ _ v) by reflexivity.
  cbn [invocations lazy]. rewrite Nat.add_0_r. reflexivity.
Qed.

End LazyRetries.

(** A thunk that is ready on its third run. *)
Lemma lazy_retries_until_defined_witness :
  Lazy.calls (fun k : nat => (if decide (k < 2) then None else Some k, S k)) 5 Lazy.lazy 0
  = ([None; None; Some 2; Some 2; Some 2],
     {| Lazy.value := Some 2; Lazy.invocations := 3 |}, 3).
Proof.
  refine (lazy_retries_until_defined
            (fun k : nat => (if decide (k < 2) then None else Some k, S k)) 0 2 2 2 _ _).
  - intros i Hi. destruct i as [|[|i]]; [reflexivity | reflexivity | lia].
  - reflexivity.
Defined.

(** ** State backups: the registry, the listing and repeated backups *)

Section BackupMore.
Import Backup.
Context `{Platform}.
Implicit Types (w : World) (data : JsVal).

Lemma remove_quietly_keeps name w :
  backups (remove_quietly name w).2 = backups w
  /\ logged (remove_quietly name w).2 = logged w.
Proof.
  unfold remove_quietly, removeAsync. simpl. destruct (remove _ _) as [[[]|e] s]; done.
Qed.

Lemma remove_all_quietly_keeps names : forall w,
  backups (promise_map remove_quietly names w).2 = backups w
  /\ logged (promise_map remove_quietly names w).2 = logged w.
Proof.
  induction names as [|name names IH]; intros w; simpl; [done|].
  destruct (remove_quietly_keeps name w) as [Hb Hl].
  destruct (remove_quietly name w) as [r w1]. simpl in Hb, Hl.
  destruct (IH w1) as [Hb' Hl'].
  destruct (promise_map remove_quietly names w1) as [rs w2]. simpl in *.
  split; congruence.
Qed.

(** X2: deleteBackups never touches the registry of backup ids nor the
    log, whatever the removals do: an id stays registered with its time
    after its file has been deleted, and failed removals leave no trace. *)
Theorem deleteBackups_keeps_registry (names : list string) w :
  backups (deleteBackups names w).2 = backups w
  /\ logged (deleteBackups names w).2 = logged w.
Proof. rewrite deleteBackups_unfold. cbn [snd]. apply remove_all_quietly_keeps. Qed.

Lemma getListOfBackups_unfold w :
  getListOfBackups w
  = (promise_then (readdir backupPath (fs (ensureDirSync backupPath w)))
       (filter (fun n => startsWith n "backup" = true /\ path_extname n = ".json")),
     record_call (ReadDir backupPath) (ensureDirSync backupPath w)).
Proof. reflexivity. Qed.

(** X3: getListOfBackups fails exactly when the directory listing fails;
    otherwise it returns, in listing order, exactly the listed names that
    start with "backup" and have the extension ".json". *)
Theorem getListOfBackups_filters_listing w listing :
  let listed := readdir backupPath (fs (ensureDirSync backupPath w)) in
  is_resolved (getListOfBackups w).1 = is_resolved listed
  /\ (listed = Resolved listing ->
      exists names,
        (getListOfBackups w).1 = Resolved names
        /\ names `sublist_of` listing
        /\ forall n, n ∈ names <->
             n ∈ listing /\ startsWith n "backup" = true /\ path_extname n = ".json").
Proof.
  intros listed. rewrite getListOfBackups_unfold. cbn [fst]. fold listed. split.
  - by destruct listed.
  - intros ->. eexists. split; [reflexivity|]. split.
    + apply sublist_filter.
    + intros n. rewrite list_elem_of_filter. tauto.
Qed.

Lemma startsWith_makeName time : startsWith (makeName time) "backup" = true.
Proof. reflexivity. Qed.

(** X4: a name produced by makeName is never filtered out of the list of
    backups: when the platform reports the extension of such a name as
    ".json" and lists it in the backup directory, getListOfBackups returns
    it. *)
Theorem made_names_are_listed w time listing :
  path_extname (makeName time) = ".json" ->
  readdir backupPath (fs (ensureDirSync backupPath w)) = Resolved listing ->
  makeName time ∈ listing ->
  exists names, (getListOfBackups w).1 = Resolved names /\ makeName time ∈ names.
Proof.
  intros Hext Hlisted Hin. rewrite getListOfBackups_unfold. cbn [fst]. rewrite Hlisted.
  eexists. split; [reflexivity|]. apply list_elem_of_filter.
  split; [|done]. split; [apply startsWith_makeName | done].
Qed.

(** X5: two backups under one id accumulate.  After a first call without
    an id, a second call with the id it returned leaves one file whose
    content is the second data spread over the first, provided the text
    written first parses back to the object written; nothing is logged and
    the id keeps its registration time. *)
Theorem successive_backups_accumulate fresh now fresh' now' (d1 d2 : JsVal) w :
  JSON_parse (JSON_stringify (VObj (own_props d1))) = Some (VObj (own_props d1)) ->
  let first := createStateBackupSync fresh now None d1 w in
  let second := createStateBackupSync fresh' now' (Some first.1) d2 first.2 in
  let file := path_join backupPath (makeName now) in
  second.1 = fresh
  /\ files (fs second.2)
     = <[file := JSON_stringify (VObj (own_props d2 ∪ own_props d1))]> (files (fs w))
  /\ backups second.2 = <[fresh := now]> (backups w)
  /\ logged second.2 = logged w.
Proof.
  intros Hround first second file. subst second first.
  rewrite (createStateBackupSync_fresh fresh now None d1 w (or_introl eq_refl)).
  rewrite spread2_empty. cbn [fst snd].
  set (w1 := writeFileSync _ _ _).
  assert (Hreg : backups w1 !! fresh = Some now) by apply lookup_insert_eq.
  rewrite (createStateBackupSync_registered _ _ _ _ _ _ Hreg). cbv zeta.
  unfold read_existing, readFileSync.
  assert (Hfile : files (fs w1) !! path_join backupPath (makeName now)
                  = Some (JSON_stringify (VObj (own_props d1))))
    by apply lookup_insert_eq.
  rewrite Hfile, Hround. cbn [fst snd]. unfold spread2. cbn [own_props].
  repeat split. subst w1 file. simpl. apply insert_insert_eq.
Qed.

End BackupMore.

Lemma getListOfBackups_filters_listing_witness :
  exists names,
    (@Backup.getListOfBackups Sample.posix Sample.with_file).1 = Resolved names
    /\ names `sublist_of` ["backup_1700000000000.json"]
    /\ "backup_1700000000000.json" ∈ names.
Proof.
  destruct (@getListOfBackups_filters_listing Sample.posix Sample.with_file
              ["backup_1700000000000.json"]) as [_ Hok].
  destruct (Hok ltac:(vm_compute; reflexivity)) as (names & Hres & Hsub & Hin).
  exists names. split; [exact Hres|]. split; [exact Hsub|].
  apply Hin. split; [left|]. split; vm_compute; reflexivity.
Defined.

Lemma made_names_are_listed_witness :
  exists names,
    (@Backup.getListOfBackups Sample.posix Sample.with_file).1 = Resolved names
    /\ "backup_1700000000000.json" ∈ names.
Proof.
  exact (@made_names_are_listed Sample.posix Sample.with_file 1700000000000%Z
           ["backup_1700000000000.json"]
           ltac:(vm_compute; reflexivity) ltac:(vm_compute; reflexivity)
           ltac:(vm_compute; left)).
Defined.

Lemma successive_backups_accumulate_witness :
  let first :=
    @Backup.createStateBackupSync Sample.posix "k2" 5 None Sample.stored
      Sample.registered_only in
  let second :=
    @Backup.createStateBackupSync Sample.posix "k3" 9 (Some first.1) Sample.update first.2 in
  second.1 = "k2"
  /\ Backup.files (Backup.fs second.2) !! "/tmp/state_backups/backup_5.json"
     = Some (Sample.stringify
               (Backup.VObj {[ "a" := Backup.VNum 1; "b" := Backup.VNum 3;
                               "c" := Backup.VNum 4 ]})).
Proof.
  destruct (@successive_backups_accumulate Sample.posix "k2" 5 "k3" 9 Sample.stored
              Sample.update Sample.registered_only ltac:(vm_compute; reflexivity))
    as (Hid & Hfiles & _).
  cbv zeta. split; [exact Hid|]. rewrite Hfiles. vm_compute. reflexivity.
Defined.

(** ** The table: more on one recomputation *)

Section RecalcMore.
Import Table.
Context {R V : Type} `{JsValue V}.
Implicit Types (attrs : list (ITableAttribute R V)) (a : ITableAttribute R V).
Implicit Types (last : option (IProps R V)) (cached : option (ILookupCalculated V)).
Implicit Types (props : IProps R V) (force : option string).
Implicit Types (values : gmap string (gmap string V)) (delta : gmap string V).
Implicit Types (data oldData : Data R) (st : @Recalc V) (row : RowData R).

Lemma elem_of_set_add x y (l : list string) : x ∈ set_add y l <-> x = y \/ x ∈ l.
Proof.
  unfold set_add. destruct (decide (y ∈ l)).
  - split; [by right | by intros [-> | ?]].
  - rewrite elem_of_app, list_elem_of_singleton. tauto.
Qed.

Lemma NoDup_set_add y (l : list string) : NoDup l -> NoDup (set_add y l).
Proof.
  intros Hl. unfold set_add. destruct (decide (y ∈ l)); [done|].
  apply NoDup_app. split; [done|]. split; [|apply NoDup_singleton].
  intros x Hx ->%list_elem_of_singleton. done.
Qed.

Lemma recalc_cell_changed force oldData rowId row delta st a :
  changedColumns (recalc_cell force oldData rowId row (delta, st) a).2
  = if changed_cell force oldData (newValues st !! rowId) rowId row a
    then set_add (id a) (changedColumns st) else changedColumns st.
Proof.
  unfold recalc_cell, changed_cell, getSafe.
  destruct (skips_calc force oldData rowId row a); simpl; [done|].
  by destruct (isEqual _ _).
Qed.

Lemma recalc_cells_changed force oldData rowId row attrs : forall delta st,
  let out := foldl (recalc_cell force oldData rowId row) (delta, st) attrs in
  (NoDup (changedColumns st) -> NoDup (changedColumns out.2))
  /\ forall x, x ∈ changedColumns out.2 <->
       x ∈ changedColumns st
       \/ exists a, a ∈ attrs /\ id a = x
            /\ changed_cell force oldData (newValues st !! rowId) rowId row a = true.
Proof.
  induction attrs as [|a attrs IH]; intros delta st; cbn [foldl]; cbv zeta.
  - split; [done|]. intros x. split; [by left|].
    intros [?|(a & Ha & _)]; [done | by apply elem_of_nil in Ha].
  - pose proof (recalc_cell_changed force oldData rowId row delta st a) as Hch.
    destruct (recalc_cell_spec force oldData rowId row delta st a) as (_ & Hv & _).
    destruct (recalc_cell force oldData rowId row (delta, st) a) as [d1 st1].
    cbn [fst snd] in Hch, Hv. destruct (IH d1 st1) as [Hnd Hin]. rewrite Hv in Hin.
    split.
    + intros Hst. apply Hnd. rewrite Hch.
      destruct (changed_cell _ _ _ _ _ a); [by apply NoDup_set_add | done].
    + intros x. rewrite Hin, Hch. split.
      * intros [Hx | (b & Hb & Hid & Hchanged)].
        -- destruct (changed_cell _ _ _ _ _ a) eqn:Ha; [|by left].
           apply elem_of_set_add in Hx as [-> | Hx]; [|by left].
           right. exists a. split; [left | done].
        -- right. exists b. split; [by right | done].
      * intros [Hx | (b & Hb & Hid & Hchanged)].
        -- left. destruct (changed_cell _ _ _ _ _ a); [|done].
           apply elem_of_set_add. by right.
        -- apply elem_of_cons in Hb as [-> | Hb]; [|right; eauto].
           left. rewrite Hchanged. apply elem_of_set_add. by left.
Qed.

Lemma recalc_row_changed force oldData attrs st rowId row :
  let out := row_done force oldData attrs st (rowId, row) in
  (NoDup (changedColumns st) -> NoDup (changedColumns out))
  /\ forall x, x ∈ changedColumns out <->
       x ∈ changedColumns st
       \/ exists a, a ∈ attrs /\ id a = x
            /\ changed_cell force oldData (newValues st !! rowId) rowId row a = true.
Proof.
  unfold row_done.
  pose proof (recalc_cells_changed force oldData rowId row attrs ∅ st) as Hc.
  destruct (foldl _ _ attrs) as [delta st']. exact Hc.
Qed.

Lemma recalc_row_other force oldData attrs st rowId row r :
  rowId <> r -> newValues (row_done force oldData attrs st (rowId, row)) !! r
                = newValues st !! r.
Proof.
  intros Hne. destruct (recalc_row_spec force oldData attrs st rowId row) as [Hv _].
  cbv zeta in Hv. rewrite Hv. by apply merge_delta_lookup_ne.
Qed.

Lemma recalc_rows_changed force oldData attrs data : forall st,
  NoDup (keys data) ->
  let out := foldl (row_done force oldData attrs) st data in
  (NoDup (changedColumns st) -> NoDup (changedColumns out))
  /\ forall x, x ∈ changedColumns out <->
       x ∈ changedColumns st
       \/ exists r row a, (r, row) ∈ data /\ a ∈ attrs /\ id a = x
            /\ changed_cell force oldData (newValues st !! r) r row a = true.
Proof.
  induction data as [|[k row] data IH]; intros st Hnd; cbn [foldl]; cbv zeta.
  - split; [done|]. intros x. split; [by left|].
    intros [?|(r & row & a & Hin & _)]; [done | by apply elem_of_nil in Hin].
  - unfold keys in Hnd. rewrite fmap_cons in Hnd. apply NoDup_cons in Hnd as [Hk Hnd].
    destruct (recalc_row_changed force oldData attrs st k row) as [Hnd1 Hin1].
    destruct (IH (row_done force oldData attrs st (k, row)) Hnd) as [Hnd2 Hin2].
    split; [auto|]. intros x. rewrite Hin2, Hin1.
    assert (Hother : forall r row', (r, row') ∈ data ->
              newValues (row_done force oldData attrs st (k, row)) !! r
              = newValues st !! r).
    { intros r row' Hin. apply recalc_row_other. intros ->. apply Hk.
      by apply (list_elem_of_fmap_2 fst _ (r, row')). }
    split.
    + intros [[Hx | (a & Ha & Hid & Hch)] | (r & row' & a & Hin & Ha & Hid & Hch)].
      * by left.
      * right. exists k, row, a. split; [left | done].
      * right. exists r, row', a. rewrite (Hother r row' Hin) in Hch.
        split; [by right | done].
    + intros [Hx | (r & row' & a & Hin & Ha & Hid & Hch)]; [by left; left|].
      apply elem_of_cons in Hin as [[= -> ->] | Hin].
      * left. right. eauto.
      * right. exists r, row', a. by rewrite (Hother r row' Hin).
Qed.

(** The changed columns of a run in which no [update] throws. *)
Lemma completed_changed_columns
    (last : option (IProps R V)) (cached : option (ILookupCalculated V))
    (props : IProps R V) (force : option string) :
  NoDup (keys (data props)) ->
  let out := completed last cached props force in
  NoDup (changedColumns out)
  /\ forall x, x ∈ changedColumns out <->
       exists rowId row a,
         (rowId, row) ∈ data props /\ a ∈ objects props /\ id a = x
         /\ skips_calc force (from_option data [] last) rowId row a = false
         /\ calc a (row_raw row) <> getSafe (default ∅ cached) rowId (id a).
Proof.
  intros Hrows out. subst out. unfold completed. cbn [changedColumns].
  match goal with |- context [foldl ?f ?s ?d] =>
    destruct (recalc_rows_changed force (from_option data [] last) (objects props)
                (data props) s Hrows) as [Hnd Hin] end.
  cbn [changedColumns newValues] in Hnd, Hin.
  split; [apply Hnd; constructor|].
  intros x. rewrite Hin. split.
  - intros [Hx | (r & row & a & Hrow & Ha & Hid & Hch)]; [by apply elem_of_nil in Hx|].
    exists r, row, a. unfold changed_cell, isEqual in Hch.
    apply andb_true_iff in Hch as [Hskip Hne].
    apply negb_true_iff in Hskip. apply negb_true_iff, bool_decide_eq_false in Hne.
    done.
  - intros (r & row & a & Hrow & Ha & Hid & Hskip & Hne). right.
    exists r, row, a. unfold changed_cell, isEqual. rewrite Hskip.
    repeat split; try done. simpl. apply negb_true_iff, bool_decide_eq_false. exact Hne.
Qed.

Lemma drop_removed_lookup_gone oldData data values r :
  data_is_undefined r data = true ->
  drop_removed oldData data values !! r
  = if decide (r ∈ keys oldData) then None else values !! r.
Proof.
  intros Hr. unfold drop_removed. generalize (keys oldData). intros ks.
  revert values. induction ks as [|k ks IH]; intros values.
  - cbn [foldl]. destruct (decide (r ∈ [])) as [Hin|]; [by apply elem_of_nil in Hin | done].
  - cbn [foldl]. rewrite IH. destruct (decide (r ∈ ks)) as [Hin | Hnin].
    + by rewrite decide_True by (by right).
    + destruct (decide (k = r)) as [-> | Hne].
      * rewrite Hr, lookup_delete_eq. by rewrite decide_True by left.
      * rewrite decide_False by (by intros [?|?]%elem_of_cons).
        destruct (data_is_undefined k data); [by apply lookup_delete_ne | done].
Qed.

(** A row id that the new data does not have but that names an inherited
    member is not undefined in the data: its entry is not deleted. *)
Lemma drop_removed_lookup_kept oldData data values r :
  data_is_undefined r data = false ->
  drop_removed oldData data values !! r = values !! r.
Proof.
  intros Hr. unfold drop_removed. generalize (keys oldData). intros ks.
  revert values. induction ks as [|k ks IH]; intros values; [done|].
  cbn [foldl]. rewrite IH.
  destruct (data_is_undefined k data) eqn:Hk; [|done].
  apply lookup_delete_ne. intros ->. congruence.
Qed.


(** X8: a row that was not in the data of the previous completed update
    (every row, when there was none) has calc invoked for each attribute,
    volatile or not, whether or not the run is rejected later. *)
Theorem new_rows_are_fully_computed
    (last : option (IProps R V)) (cached : option (ILookupCalculated V))
    (props : IProps R V) (force : option string) rowId row a :
  (rowId, row) ∈ data props -> a ∈ objects props ->
  data_get rowId (from_option data [] last) = None ->
  (rowId, id a) ∈ calc_calls (recalculate last cached props force).
Proof.
  intros Hrow Ha Hnew. rewrite recalculate_calls.
  apply elem_of_expected_calls. exists row, a. repeat split; try done.
  unfold skips_calc. rewrite Hnew. simpl. by rewrite andb_false_r.
Qed.

Lemma changed_cell_spec force oldData old rowId row a :
  changed_cell force oldData old rowId row a = true <->
  skips_calc force oldData rowId row a = false
  /\ calc a (row_raw row) <> default undefined (old ≫= (.!! id a)).
Proof.
  unfold changed_cell, isEqual.
  rewrite andb_true_iff, !negb_true_iff, bool_decide_eq_false. done.
Qed.

Lemma row_delta_unchanged force oldData old rowId row attrs : forall delta,
  (forall a, a ∈ attrs -> changed_cell force oldData old rowId row a = false) ->
  row_delta force oldData old rowId row attrs delta = delta.
Proof.
  induction attrs as [|a attrs IH]; intros delta Hquiet; [done|].
  rewrite row_delta_cons, (Hquiet a) by left.
  apply IH. intros b Hb. apply Hquiet. by right.
Qed.

Lemma row_delta_keeps force oldData old rowId row attrs k : forall delta,
  is_Some (delta !! k) ->
  is_Some (row_delta force oldData old rowId row attrs delta !! k).
Proof.
  induction attrs as [|a attrs IH]; intros delta Hk; [done|].
  rewrite row_delta_cons. apply IH.
  destruct (changed_cell _ _ _ _ _ a); [|done].
  destruct (decide (id a = k)) as [-> | Hne].
  - rewrite lookup_insert_eq. eauto.
  - by rewrite lookup_insert_ne.
Qed.

Lemma row_delta_changed force oldData old rowId row attrs a : forall delta,
  a ∈ attrs -> changed_cell force oldData old rowId row a = true ->
  is_Some (row_delta force oldData old rowId row attrs delta !! id a).
Proof.
  induction attrs as [|b attrs IH]; intros delta Hin Hch; [by apply elem_of_nil in Hin|].
  rewrite row_delta_cons. apply elem_of_cons in Hin as [<- | Hin]; [|by apply IH].
  rewrite Hch. apply row_delta_keeps. rewrite lookup_insert_eq. eauto.
Qed.


(** A row in which no cell is rewritten leaves the accumulator as it is,
    apart from the calls. *)
Lemma recalc_cells_quiet force oldData rowId row attrs : forall delta st,
  (forall a, a ∈ attrs ->
     changed_cell force oldData (newValues st !! rowId) rowId row a = false) ->
  changedColumns (foldl (recalc_cell force oldData rowId row) (delta, st) attrs).2
  = changedColumns st.
Proof.
  induction attrs as [|a attrs IH]; intros delta st Hquiet; [done|]. cbn [foldl].
  pose proof (recalc_cell_changed force oldData rowId row delta st a) as Hch.
  destruct (recalc_cell_spec force oldData rowId row delta st a) as (_ & Hv & _).
  destruct (recalc_cell force oldData rowId row (delta, st) a) as [d1 st1].
  cbn [fst snd] in Hch, Hv. rewrite (Hquiet a) in Hch by left.
  rewrite IH; [done|]. intros b Hb. rewrite Hv. apply Hquiet. by right.
Qed.

Lemma recalc_row_quiet force oldData attrs st rowId row :
  (forall a, a ∈ attrs ->
     changed_cell force oldData (newValues st !! rowId) rowId row a = false) ->
  newValues (row_done force oldData attrs st (rowId, row)) = newValues st
  /\ changedColumns (row_done force oldData attrs st (rowId, row)) = changedColumns st.
Proof.
  intros Hquiet. split.
  - destruct (recalc_row_spec force oldData attrs st rowId row) as [Hv _].
    cbv zeta in Hv. rewrite Hv, row_delta_unchanged by done.
    unfold merged. by rewrite decide_True.
  - unfold row_done.
    pose proof (recalc_cells_quiet force oldData rowId row attrs ∅ st Hquiet) as Hc.
    by destruct (foldl _ _ attrs).
Qed.

Lemma recalc_rows_quiet force oldData attrs data : forall st,
  (forall r row a, (r, row) ∈ data -> a ∈ attrs ->
     changed_cell force oldData (newValues st !! r) r row a = false) ->
  newValues (foldl (row_done force oldData attrs) st data) = newValues st
  /\ changedColumns (foldl (row_done force oldData attrs) st data) = changedColumns st.
Proof.
  induction data as [|[k row] data IH]; intros st Hquiet; [done|]. cbn [foldl].
  destruct (recalc_row_quiet force oldData attrs st k row) as [Hv Hc].
  { intros a Ha. apply (Hquiet k row a); [left | done]. }
  destruct (IH (row_done force oldData attrs st (k, row))) as [Hv' Hc'].
  { intros r row' a Hin Ha. rewrite Hv. apply (Hquiet r row' a); [by right | done]. }
  split; congruence.
Qed.

Lemma drop_removed_same data values : drop_removed data data values = values.
Proof.
  unfold drop_removed.
  assert (Hall : Forall (fun k => is_Some (data_get k data)) (keys data))
    by (apply Forall_forall; intros k; apply data_get_key).
  revert values. induction Hall as [|k ks [row Hk] _ IH]; intros values; [done|].
  cbn [foldl].
  replace (data_is_undefined k data) with false
    by (unfold data_is_undefined; by rewrite Hk).
  apply IH.
Qed.

Lemma drop_removed_none_gone oldData data values :
  (forall r, r ∈ keys oldData -> data_is_undefined r data = false) ->
  drop_removed oldData data values = values.
Proof.
  unfold drop_removed. generalize (keys oldData). intros ks Hstay.
  revert values. induction ks as [|k ks IH]; intros values; [done|].
  cbn [foldl]. rewrite (Hstay k) by left. apply IH. intros r Hr. apply Hstay. by right.
Qed.

(** Rows in which no cell is rewritten cannot make [update] throw. *)
Lemma recalc_row_quiet_done force oldData attrs st rowId row :
  (forall a, a ∈ attrs ->
     changed_cell force oldData (newValues st !! rowId) rowId row a = false) ->
  recalc_row force oldData attrs st (rowId, row)
  = row_done force oldData attrs st (rowId, row).
Proof.
  intros Hquiet. unfold recalc_row, row_done.
  destruct (recalc_cells_spec force oldData rowId row attrs ∅ st) as (Hd & Hv & _).
  destruct (foldl _ _ attrs) as [delta st']. cbn [fst snd] in Hd, Hv.
  rewrite row_delta_unchanged in Hd by done. subst delta.
  unfold merge_delta, merged. by rewrite !decide_True.
Qed.

Lemma recalc_rows_quiet_done force oldData attrs data : forall st,
  (forall r row a, (r, row) ∈ data -> a ∈ attrs ->
     changed_cell force oldData (newValues st !! r) r row a = false) ->
  foldl (recalc_row force oldData attrs) st data
  = foldl (row_done force oldData attrs) st data.
Proof.
  induction data as [|[k row] data IH]; intros st Hquiet; [done|]. cbn [foldl].
  rewrite recalc_row_quiet_done by (intros a Ha; apply (Hquiet k row a); [left | done]).
  apply IH. intros r row' a Hin Ha.
  destruct (recalc_row_quiet force oldData attrs st k row) as [Hv _].
  { intros b Hb. apply (Hquiet k row b); [left | done]. }
  rewrite Hv. apply (Hquiet r row' a); [by right | done].
Qed.

(** X10: when is a recomputation quiet.  A run over rows that are all
    the objects of the previous completed update invokes calc for the
    volatile attributes and the forced column only.  And a run in which
    every value that calc returns equals the cached one, and from which no
    row of the previous update has gone, is not rejected, yields the cache
    it started from and reports no changed column. *)
Theorem repeated_recomputation_is_quiet
    (last : option (IProps R V)) (cached : option (ILookupCalculated V))
    (props : IProps R V) (force : option string) :
  let oldData := from_option data [] last in
  let out := recalculate last cached props force in
  ((forall r row, (r, row) ∈ data props ->
      same_row (data_get r oldData) (Some row) = true) ->
   forall rowId k, (rowId, k) ∈ calc_calls out ->
     exists a, a ∈ objects props /\ id a = k
               /\ (isVolatile a = true \/ force = Some k))
  /\ ((forall r row a, (r, row) ∈ data props -> a ∈ objects props ->
         skips_calc force oldData r row a = false ->
         calc a (row_raw row) = getSafe (default ∅ cached) r (id a)) ->
      (forall r, r ∈ keys oldData -> data_is_undefined r (data props) = false) ->
      rejected out = false
      /\ newValues out = default ∅ cached
      /\ changedColumns out = []).
Proof.
  intros oldData out. split.
  - intros Hsame rowId k. subst out. rewrite recalculate_calls.
    intros (row & a & Hrow & Ha & Hid & Hskip)%elem_of_expected_calls.
    exists a. split; [done|]. split; [done|].
    unfold skips_calc in Hskip. fold oldData in Hskip.
    rewrite (Hsame rowId row Hrow), andb_true_r in Hskip.
    apply andb_false_iff in Hskip as [Hvol | Hforce].
    + left. by apply negb_false_iff.
    + right. apply bool_decide_eq_false in Hforce.
      destruct (decide (force = Some k)) as [|Hne]; [done|].
      exfalso. apply Hforce. rewrite Hid. congruence.
  - intros Hequal Hstay.
    assert (Hquiet : forall r row a, (r, row) ∈ data props -> a ∈ objects props ->
              changed_cell force oldData (default ∅ cached !! r) r row a = false).
    { intros r row a Hrow Ha. unfold changed_cell.
      destruct (skips_calc force oldData r row a) eqn:Hskip; [done|]. cbn [negb andb].
      apply negb_false_iff. unfold isEqual. apply bool_decide_eq_true.
      exact (Hequal r row a Hrow Ha Hskip). }
    subst out. unfold recalculate. fold oldData.
    cbn [rejected newValues changedColumns].
    match goal with |- context [foldl _ ?s (data props)] =>
      rewrite (recalc_rows_quiet_done force oldData (objects props) (data props) s Hquiet);
      destruct (recalc_rows_quiet force oldData (objects props) (data props) s Hquiet)
        as [Hv Hc]
    end.
    cbn [newValues changedColumns] in Hv, Hc.
    rewrite rows_done_rejected, Hv, Hc. cbn [rejected].
    by rewrite drop_removed_none_gone.
Qed.

End RecalcMore.

(** ** The table: the queued update *)

Section GuardMore.
Import Table.
Context {R V : Type} `{JsValue V}.
Implicit Types (c : @Component R V) (props : IProps R V).

Lemma settle_idle c : inflight c = None -> settle c = (None, c).
Proof. unfold settle. intros ->. reflexivity. Qed.



End GuardMore.

(** ** The table: which rows are ordered, and where undefined values go *)

Section OrderMore.
Import Table.
Context {R V : Type} `{JsValue V}.
Implicit Types (values : ILookupCalculated V) (data : Data R).
Implicit Types (attrs : list (ITableAttribute R V)) (a : ITableAttribute R V).

(** X12: with distinct row ids, a stable engine and a consistent
    comparison, sortedRows lists no row twice and lists exactly the rows of
    the data when no sort is requested, and when one is, exactly those of
    them for which [calculatedValues[rowId]] is not undefined: the rows
    that have calculated values and the rows whose id names a member that
    the cache object inherits. *)
Theorem sortedRows_lists_each_row_once `{Engine}
    values (attributeState : gmap string IAttributeState) attrs data (locale : string) :
  stable_sort ->
  NoDup (keys data) ->
  (forall a, find_sortAttribute attributeState attrs = Some a ->
     consistent_on (row_compare values data locale a (is_descending attributeState a))
                   (dataIds values data)) ->
  let result := sortedRows values attributeState attrs data locale in
  NoDup result
  /\ forall rowId, rowId ∈ result <->
       rowId ∈ keys data
       /\ (find_sortAttribute attributeState attrs = None
           \/ is_Some (values !! rowId) \/ Js.inherited rowId = true).
Proof.
  intros Hstable Hrows Hc result. subst result. unfold sortedRows.
  destruct (find_sortAttribute attributeState attrs) as [a|].
  - destruct (Hstable string _ _ (Hc a eq_refl)) as (Hperm & _ & _).
    split; [rewrite Hperm; by apply NoDup_filter|].
    intros rowId. rewrite Hperm. unfold dataIds.
    rewrite list_elem_of_filter. unfold Js.is_undefined, Js.get.
    destruct (values !! rowId) as [row|]; [|destruct (Js.inherited rowId)].
    + split; [intros [_ ?]; eauto | intros [? _]; done].
    + split; [intros [_ ?]; eauto | intros [? _]; done].
    + split; [intros [? _]; done|].
      intros [_ [? | [[? ?] | ?]]]; done.
  - rewrite filter_all by (apply Forall_forall; intros k; apply data_get_key).
    split; [done|]. intros rowId. split; [auto | by intros [? _]].
Qed.

Lemma StronglySorted_lookup {A} (rel : A -> A -> Prop) (l : list A) i j x y :
  StronglySorted rel l -> i < j -> l !! i = Some x -> l !! j = Some y -> rel x y.
Proof.
  intros Hsorted. revert i j. induction Hsorted as [|z l _ IH Hz]; intros i j Hij Hi Hj.
  - by rewrite lookup_nil in Hi.
  - destruct j as [|j]; [lia|]. destruct i as [|i]; simpl in Hi, Hj.
    + injection Hi as ->. rewrite Forall_forall in Hz. apply Hz.
      by apply list_elem_of_lookup_2 in Hj.
    + apply (IH i j); [lia | done | done].
Qed.

(** X13: where undefined values go.  When the sort attribute has no
    sortFuncRaw, the engine's sort is stable and the comparison is
    consistent, an ascending table has no row with a value before a row
    without one, and a descending table has no row without a value before
    a row with one. *)
Theorem undefined_values_sort_first `{Engine}
    values (attributeState : gmap string IAttributeState) attrs data (locale : string)
    a i j lhsId rhsId :
  stable_sort ->
  find_sortAttribute attributeState attrs = Some a ->
  sortFuncRaw a = None ->
  consistent_on (row_compare values data locale a (is_descending attributeState a))
                (dataIds values data) ->
  let result := sortedRows values attributeState attrs data locale in
  i < j -> result !! i = Some lhsId -> result !! j = Some rhsId ->
  if is_descending attributeState a
  then cell values lhsId (id a) = undefined -> cell values rhsId (id a) = undefined
  else cell values rhsId (id a) = undefined -> cell values lhsId (id a) = undefined.
Proof.
  intros Hstable Hfind Hraw Hc result Hij Hi Hj. subst result.
  unfold sortedRows in Hi, Hj. rewrite Hfind in Hi, Hj.
  destruct (Hstable string _ _ Hc) as (_ & Hsorted & _).
  pose proof (StronglySorted_lookup _ _ i j lhsId rhsId Hsorted Hij Hi Hj) as Hle.
  cbv beta in Hle. unfold row_compare, undefCompare in Hle. rewrite Hraw in Hle.
  rewrite bool_decide_eq_false_2 in Hle by (intros Hne; by apply Hne).
  cbn [orb] in Hle.
  destruct (is_descending attributeState a).
  - intros Hl. rewrite (bool_decide_eq_false_2 (_ <> _)) in Hle by (intros Hne; by apply Hne).
    cbn [andb] in Hle.
    destruct (decide (cell values rhsId (id a) = undefined)) as [|Hr]; [done|].
    rewrite bool_decide_eq_true_2 in Hle by done. lia.
  - intros Hr.
    destruct (decide (cell values lhsId (id a) = undefined)) as [|Hl]; [done|].
    rewrite (bool_decide_eq_true_2 (cell values lhsId (id a) <> undefined)) in Hle
      by done.
    rewrite (bool_decide_eq_false_2 (cell values rhsId (id a) <> undefined)) in Hle
      by (intros Hne; by apply Hne).
    cbn [andb] in Hle. lia.
Qed.

End OrderMore.

(** *** The sample table again *)



Lemma new_rows_are_fully_computed_witness :
  Table.data_get "r2" (Table.data Sample.props1) = None
  /\ ("r2", "size")
     ∈ Table.calc_calls
         (Table.recalculate (Some Sample.props1) (Some Sample.cache1) Sample.props2 None).
Proof.
  split; [reflexivity|].
  exact (@new_rows_are_fully_computed Z Sample.Val Sample.Val_JsValue (Some Sample.props1)
           (Some Sample.cache1) Sample.props2 None "r2"
           {| Table.row_ref := 2; Table.row_raw := 20%Z |} Sample.size
           ltac:(simpl; right; left) ltac:(simpl; left) eq_refl).
Defined.


(** The sample table recomputed for the props it has just processed: the
    volatile columns are computed again and give what the cache holds. *)
Lemma repeated_recomputation_is_quiet_witness :
  let first := Table.recalculate (Some Sample.props1) (Some Sample.cache1) Sample.props2 None in
  let again := Table.recalculate (Some Sample.props2) (Some (Table.newValues first))
                 Sample.props2 None in
  Table.rejected again = false
  /\ Table.newValues again = Table.newValues first
  /\ Table.changedColumns again = [].
Proof.
  destruct (@repeated_recomputation_is_quiet Z Sample.Val Sample.Val_JsValue (Some Sample.props2)
              (Some (Table.newValues
                       (Table.recalculate (Some Sample.props1) (Some Sample.cache1)
                          Sample.props2 None)))
              Sample.props2 None) as [_ Hquiet].
  apply Hquiet.
  - intros r row a Hrow Ha Hskip.
    simpl in Hrow, Ha. unfold Sample.columns in Ha.
    repeat (apply elem_of_cons in Hrow as [[= -> ->] | Hrow]);
      [| | by apply elem_of_nil in Hrow];
      repeat (apply elem_of_cons in Ha as [-> | Ha]);
      first [ discriminate Hskip | reflexivity | by apply elem_of_nil in Ha ].
  - intros r Hr. simpl in Hr.
    repeat (apply elem_of_cons in Hr as [-> | Hr]);
      [reflexivity | reflexivity | by apply elem_of_nil in Hr].
Defined.


(** The table sorted by [size]: row ["b"], which has no size yet, is
    listed, and listed first. *)
Lemma sortedRows_lists_each_row_once_witness :
  let result := @Table.sortedRows Z Sample.Val Sample.Val_JsValue Table.insertion
                  Sample.sizes Sample.by_size [Sample.size] Sample.graded "en" in
  NoDup (Table.keys Sample.graded) /\ NoDup result /\ "b" ∈ result.
Proof.
  assert (Hrows : NoDup (Table.keys Sample.graded)) by by_evaluation.
  destruct (@sortedRows_lists_each_row_once Z Sample.Val Sample.Val_JsValue Table.insertion
              Sample.sizes Sample.by_size
              [Sample.size] Sample.graded "en" insertion_is_stable Hrows) as [Hnd Hin].
  { intros a [= <-]. unfold Table.consistent_on. by_evaluation. }
  cbv zeta. split; [exact Hrows|]. split; [exact Hnd|].
  apply Hin. split; [by_evaluation|]. right. left. vm_compute. eauto.
Defined.

Lemma undefined_values_sort_first_witness :
  let values : gmap string (gmap string Sample.Val) :=
    {[ "a" := ∅; "b" := ∅; "c" := {[ "size" := Sample.Num 13 ]} ]} in
  let result := @Table.sortedRows Z Sample.Val Sample.Val_JsValue Table.insertion
                  values Sample.by_size [Sample.size] Sample.graded "en" in
  result !! 0 = Some "a" /\ result !! 1 = Some "b"
  /\ Table.cell values "b" "size" = Sample.Undef
  /\ Table.cell values "a" "size" = Sample.Undef.
Proof.
  cbv zeta.
  set (values := ({[ "a" := ∅; "b" := ∅; "c" := {[ "size" := Sample.Num 13 ]} ]}
                  : gmap string (gmap string Sample.Val))).
  assert (Hb : Table.cell values "b" "size" = Sample.Undef) by reflexivity.
  split; [reflexivity|]. split; [reflexivity|]. split; [exact Hb|].
  refine (@undefined_values_sort_first Z Sample.Val Sample.Val_JsValue Table.insertion
            values Sample.by_size [Sample.size]
            Sample.graded "en" Sample.size 0 1 "a" "b" insertion_is_stable
            eq_refl eq_refl _ ltac:(lia) eq_refl eq_refl Hb).
  unfold Table.consistent_on. by_evaluation.
Defined.

(** ** The table: selecting rows *)

Section SelectionFacts.
Import Selection.
Context {Rest : Type} `{EqDecision Rest}.
Implicit Types (c : @Component Rest) (s : @IComponentState Rest).
Implicit Types (rows target : gmap string IRowState) (spec : gmap string RowCommand).

Lemma update_rowState_applies spec target :
  (forall k cmd, spec !! k = Some cmd -> command_applies target k cmd = true) ->
  update_rowState spec target = Some (merge run_command spec target).
Proof. intros Hok. unfold update_rowState. by rewrite decide_True. Qed.

Lemma lookup_updated spec target k :
  merge run_command spec target !! k = run_command (spec !! k) (target !! k).
Proof. rewrite lookup_merge. by destruct (spec !! k), (target !! k). Qed.

(** On a settled component [updateState] installs the new state. *)
Lemma updateState_settled newState c :
  settled c -> state (updateState newState c) = newState /\ settled (updateState newState c).
Proof.
  intros [Hm Hn]. unfold updateState, settled.
  destruct (decide (newState = state c)) as [-> | Hne]; [done|].
  simpl. by rewrite Hm.
Qed.

Lemma is_selected_lookup rows k :
  is_selected rows k = true <-> exists r, rows !! k = Some r /\ selected r = Some true.
Proof.
  unfold is_selected. rewrite bool_decide_eq_true. destruct (rows !! k) as [r|]; simpl.
  - split; [eauto | by intros (? & [= <-] & ?)].
  - split; [done | by intros (? & ? & _)].
Qed.

(** Where the row has a state of its own, or a name that is not the name
    of an inherited member, the handlers choose by the row states. *)
Lemma select_command_own {A} (rows : gmap string A) key b :
  Js.inherited key = false \/ is_Some (rows !! key) ->
  select_command rows key b
  = match rows !! key with
    | None => just_selected b
    | Some _ => SetSelected b
    end.
Proof.
  unfold select_command, Js.is_undefined, Js.get.
  destruct (rows !! key) as [r|]; [done|]. intros [-> | [? ?]]; done.
Qed.

Lemma foldl_ext_in {A B} (f g : A -> B -> A) (l : list B) :
  (forall a x, x ∈ l -> f a x = g a x) -> forall a, foldl f a l = foldl g a l.
Proof.
  induction l as [|x l IH]; intros Hfg a; [done|]. cbn [foldl].
  rewrite (Hfg a x) by left. apply IH. intros b y Hy. apply Hfg. by right.
Qed.

(** The rows [selectOnly] leaves behind. *)
Lemma selectOnly_settled rowId click now c :
  settled c ->
  let key := default "undefined" rowId in
  Js.inherited key = false \/ is_Some (rowState (state c) !! key) ->
  exists c',
    selectOnly rowId click now c = Some c'
    /\ settled c'
    /\ lastSelected (state c') = rowId
    /\ sortedRows (state c') = sortedRows (state c)
    /\ forall k, rowState (state c') !! k
         = if decide (k = key)
           then Some {| selected := Some true;
                        highlighted := rowState (state c) !! k ≫= highlighted |}
           else (fun r => {| selected := Some false; highlighted := highlighted r |})
                  <$> rowState (state c) !! k.
Proof.
  intros Hsettled key Hkey. pose proof Hsettled as [Hm Hn]. unfold selectOnly. fold key.
  rewrite Hn, select_command_own by done.
  set (spec := <[key := _]> (unselect_all (rowState (state c)))).
  rewrite (update_rowState_applies spec).
  2:{ intros k cmd. unfold spec. destruct (decide (key = k)) as [<- | Hne].
      - rewrite lookup_insert_eq. intros [= <-].
        destruct (rowState (state c) !! key) eqn:Hrow; simpl; [|done].
        apply bool_decide_eq_true. rewrite Hrow. eauto.
      - rewrite lookup_insert_ne by done. unfold unselect_all. rewrite lookup_fmap.
        destruct (rowState (state c) !! k) eqn:Hrow; simpl; [|done].
        intros [= <-]. simpl. apply bool_decide_eq_true. rewrite Hrow. eauto. }
  cbn [mbind option_bind].
  assert (Hrows : forall k, merge run_command spec (rowState (state c)) !! k
            = if decide (k = key)
              then Some {| selected := Some true;
                           highlighted := rowState (state c) !! k ≫= highlighted |}
              else (fun r => {| selected := Some false; highlighted := highlighted r |})
                     <$> rowState (state c) !! k).
  { intros k. rewrite lookup_updated. unfold spec.
    destruct (decide (k = key)) as [-> | Hne].
    - rewrite lookup_insert_eq. by destruct (rowState (state c) !! key).
    - rewrite lookup_insert_ne by done. unfold unselect_all. rewrite lookup_fmap.
      by destruct (rowState (state c) !! k). }
  destruct (click && bool_decide (lastSelected (state c) = rowId)
            && bool_decide (now - mLastSelectOnly c < 500)%Z) eqn:Hdouble.
  - eexists. split; [reflexivity|].
    destruct (updateState_settled
                (with_rows (merge run_command spec (rowState (state c)))
                   (with_detailsOpen (negb (detailsOpen (state c))) (state c))) c Hsettled)
      as [-> Hs].
    split; [exact Hs|]. cbn [lastSelected with_rows with_detailsOpen sortedRows rowState].
    apply andb_true_iff in Hdouble as [[_ Hlast%bool_decide_eq_true]%andb_true_iff _].
    done.
  - eexists. split; [reflexivity|].
    match goal with |- context [updateState ?n ?c0] =>
      destruct (updateState_settled n c0) as [-> Hs]; [done|] end.
    split; [exact Hs|]. done.
Qed.


(** Unselecting the rows picked by a test: the spec applies to the map
    it was built from and changes the picked rows only. *)
Lemma unselect_filtered (P : string * IRowState -> Prop) `{!forall kv, Decision (P kv)}
    rows :
  exists rows',
    update_rowState ((fun _ => SetSelected false) <$> filter P rows) rows = Some rows'
    /\ forall k, rows' !! k
         = (fun r => if decide (P (k, r))
                     then {| selected := Some false; highlighted := highlighted r |}
                     else r) <$> rows !! k.
Proof.
  eexists. split.
  - apply update_rowState_applies. intros k cmd. rewrite lookup_fmap.
    destruct (filter P rows !! k) as [r|] eqn:Hf; [|done]. intros [= <-]. simpl.
    apply map_lookup_filter_Some in Hf as [Hr _].
    apply bool_decide_eq_true. rewrite Hr. eauto.
  - intros k. rewrite lookup_updated, lookup_fmap, map_lookup_filter.
    destruct (rows !! k) as [r|]; simpl; [|done].
    destruct (decide (P (k, r))); by simplify_option_eq.
Qed.



Lemma update_one_row rowId cmd rows :
  command_applies rows rowId cmd = true ->
  exists rows',
    update_rowState {[ rowId := cmd ]} rows = Some rows'
    /\ rows' !! rowId = run_command (Some cmd) (rows !! rowId)
    /\ forall k, k <> rowId -> rows' !! k = rows !! k.
Proof.
  intros Hok. eexists. split; [|split].
  - apply update_rowState_applies. intros k c0.
    intros [<- <-]%lookup_singleton_Some. exact Hok.
  - by rewrite lookup_updated, lookup_singleton_eq.
  - intros k Hne. rewrite lookup_updated, lookup_singleton_ne by done. done.
Qed.


(** The spec [selectAll] builds: the visible rows are selected, with a
    nested spec when the row is being unselected by the first loop and a
    whole new row state otherwise. *)
Lemma selectAll_spec_lookup (visible : list string) k : forall spec : gmap string RowCommand,
  NoDup visible ->
  Forall (fun key => Js.inherited key = false) visible ->
  foldl (fun newState key => <[key := select_command newState key true]> newState)
        spec visible !! k
  = if decide (k ∈ visible)
    then Some (match spec !! k with
               | None => just_selected true
               | Some _ => SetSelected true
               end)
    else spec !! k.
Proof.
  induction visible as [|x visible IH]; intros spec Hnd Hord.
  - cbn [foldl]. by rewrite decide_False by apply not_elem_of_nil.
  - apply NoDup_cons in Hnd as [Hx Hnd]. apply Forall_cons in Hord as [Hox Hord].
    cbn [foldl]. rewrite IH by done. rewrite select_command_own by (by left).
    destruct (decide (k = x)) as [-> | Hne].
    + rewrite decide_False, decide_True, lookup_insert_eq by first [done | left]. done.
    + rewrite lookup_insert_ne by done.
      destruct (decide (k ∈ visible)) as [Hin | Hnin].
      * by rewrite decide_True by (by right).
      * by rewrite decide_False by (by intros [?|?]%elem_of_cons).
Qed.

Lemma unselect_selected_lookup rows k :
  unselect_selected rows !! k
  = if is_selected rows k then Some (SetSelected false) else None.
Proof.
  unfold unselect_selected, is_selected. rewrite lookup_fmap, map_lookup_filter.
  destruct (rows !! k) as [r|]; simpl; [|done].
  case_bool_decide; by simplify_option_eq.
Qed.


Lemma selected_after_selectOnly rowId click now c c' :
  settled c ->
  Js.inherited (default "undefined" rowId) = false
  \/ is_Some (rowState (state c) !! default "undefined" rowId) ->
  selectOnly rowId click now c = Some c' ->
  forall k, is_selected (rowState (state c')) k
            = bool_decide (k = default "undefined" rowId).
Proof.
  intros Hsettled Hkey Hcall k.
  destruct (selectOnly_settled rowId click now c Hsettled Hkey)
    as (c0 & Hc0 & _ & _ & _ & Hrows).
  rewrite Hcall in Hc0. injection Hc0 as <-.
  unfold is_selected. rewrite Hrows.
  destruct (decide (k = default "undefined" rowId)) as [Heq | Hne].
  - rewrite (bool_decide_eq_true_2 _ Heq). by apply bool_decide_eq_true.
  - rewrite (bool_decide_eq_false_2 _ Hne).
    apply bool_decide_eq_false. by destruct (rowState (state c) !! k).
Qed.



Lemma foldl_insert_lookup {A} (g : string -> A) (visible : list string) k :
  forall acc : gmap string A,
    foldl (fun m x => <[x := g x]> m) acc visible !! k
    = if decide (k ∈ visible) then Some (g k) else acc !! k.
Proof.
  induction visible as [|x visible IH]; intros acc.
  - cbn [foldl]. by rewrite decide_False by apply not_elem_of_nil.
  - cbn [foldl]. rewrite IH. destruct (decide (k ∈ visible)) as [Hin | Hnin].
    + by rewrite decide_True by (by right).
    + destruct (decide (k = x)) as [-> | Hne].
      * rewrite decide_True by left. apply lookup_insert_eq.
      * rewrite decide_False by (by intros [?|?]%elem_of_cons).
        by apply lookup_insert_ne.
Qed.

(** What [selectTo] does to the rows, given the ids its first loop
    collected. *)
Lemma selectTo_settled (rowId : string) (visible : list string) c :
  settled c ->
  sortedRows (state c) = Some visible ->
  Forall (fun key => Js.inherited key = false) visible ->
  let anchor := lastSelected (state c) in
  let start : gset string :=
    {[rowId]} ∪ match anchor with Some l => {[l]} | None => ∅ end in
  let selection := (foldl (selectTo_step rowId anchor) (false, start) visible).2 in
  exists c',
    selectTo rowId c = Some c'
    /\ settled c'
    /\ lastSelected (state c') = lastSelected (state c)
    /\ forall k, rowState (state c') !! k
         = if decide (k ∈ visible)
           then Some {| selected := Some (bool_decide (k ∈ selection));
                        highlighted := rowState (state c) !! k ≫= highlighted |}
           else rowState (state c) !! k.
Proof.
  intros Hsettled Hvisible Hord anchor start selection. pose proof Hsettled as [Hm Hn].
  unfold selectTo. rewrite Hvisible, Hn. cbn [mbind option_bind].
  fold anchor. fold start. fold selection.
  set (g := fun iterId =>
              match rowState (state c) !! iterId with
              | None => just_selected (bool_decide (iterId ∈ selection))
              | Some _ => SetSelected (bool_decide (iterId ∈ selection))
              end).
  match goal with |- context [update_rowState ?sp _] =>
    replace sp with (foldl (fun (m : gmap string RowCommand) x => <[x := g x]> m)
                           ∅ visible)
      by (apply foldl_ext_in; intros m x Hx; unfold g;
          rewrite select_command_own;
          [done | left; rewrite Forall_forall in Hord; by apply Hord]);
    set (spec := foldl (fun (m : gmap string RowCommand) x => <[x := g x]> m) ∅ visible)
  end.
  assert (Hspec : forall k, spec !! k = if decide (k ∈ visible) then Some (g k) else None).
  { intros k. unfold spec. by rewrite foldl_insert_lookup, lookup_empty. }
  rewrite (update_rowState_applies spec).
  2:{ intros k cmd. rewrite Hspec. destruct (decide _); [|done]. intros [= <-].
      unfold g. destruct (rowState (state c) !! k) eqn:Hk; [|done].
      simpl. apply bool_decide_eq_true. rewrite Hk. eauto. }
  cbn [mbind option_bind]. eexists. split; [reflexivity|].
  destruct (updateState_settled
              (with_rows (merge run_command spec (rowState (state c))) (state c))
              c Hsettled) as [-> Hs].
  split; [exact Hs|]. split; [done|]. cbn [rowState with_rows].
  intros k. rewrite lookup_updated, Hspec. destruct (decide _); [|done].
  unfold g. by destruct (rowState (state c) !! k).
Qed.

(** The loop over a stretch of rows that holds neither the clicked row
    nor the anchor. *)
Lemma selectTo_scan_plain (rowId : string) (anchor : option string) (seg : list string) :
  (forall x, x ∈ seg -> x <> rowId /\ Some x <> anchor) ->
  forall (selecting : bool) (selection : gset string),
    foldl (selectTo_step rowId anchor) (selecting, selection) seg
    = (selecting, if selecting then list_to_set seg ∪ selection else selection).
Proof.
  induction seg as [|x seg IH]; intros Hplain selecting selection.
  - cbn [foldl]. destruct selecting; [|done].
    by rewrite list_to_set_nil, (left_id_L ∅ (∪)).
  - cbn [foldl]. destruct (Hplain x ltac:(left)) as [Hx Ha].
    assert (Hstep : selectTo_step rowId anchor (selecting, selection) x
                    = (selecting, if selecting then {[x]} ∪ selection else selection)).
    { unfold selectTo_step.
      rewrite (bool_decide_eq_false_2 (x = rowId)),
        (bool_decide_eq_false_2 (Some x = anchor)) by done.
      by destruct selecting. }
    rewrite Hstep, IH by (intros y Hy; apply Hplain; by right).
    destruct selecting; [|done]. f_equal. rewrite list_to_set_cons.
    apply set_eq. intros z. rewrite !elem_of_union. tauto.
Qed.

(** The loop at the clicked row or the anchor: it opens the range when
    none is open and the two differ, and closes an open one. *)
Lemma selectTo_step_opens (rowId : string) (anchor : option string) b selection :
  b = rowId \/ Some b = anchor -> Some rowId <> anchor ->
  selectTo_step rowId anchor (false, selection) b = (true, {[b]} ∪ selection).
Proof.
  intros Hb Hne. unfold selectTo_step.
  assert (bool_decide (b = rowId) || bool_decide (Some b = anchor) = true) as ->.
  { destruct Hb as [-> | Hb]; [by rewrite bool_decide_eq_true_2|].
    rewrite (bool_decide_eq_true_2 _ Hb). by rewrite orb_true_r. }
  cbn [negb andb]. by rewrite bool_decide_eq_false_2.
Qed.

Lemma selectTo_step_closes (rowId : string) (anchor : option string) b selection :
  b = rowId \/ Some b = anchor ->
  selectTo_step rowId anchor (true, selection) b = (false, {[b]} ∪ selection).
Proof.
  intros Hb. unfold selectTo_step.
  assert (bool_decide (b = rowId) || bool_decide (Some b = anchor) = true) as ->.
  { destruct Hb as [-> | Hb]; [by rewrite bool_decide_eq_true_2|].
    rewrite (bool_decide_eq_true_2 _ Hb). by rewrite orb_true_r. }
  done.
Qed.

Lemma is_selected_after_selectTo rows rows' (visible : list string)
    (selection : gset string) :
  (forall k, rows' !! k
     = if decide (k ∈ visible)
       then Some {| selected := Some (bool_decide (k ∈ selection));
                    highlighted := rows !! k ≫= highlighted |}
       else rows !! k) ->
  forall k, is_selected rows' k
            = if decide (k ∈ visible) then bool_decide (k ∈ selection)
              else is_selected rows k.
Proof.
  intros Hrows k. unfold is_selected. rewrite Hrows.
  destruct (decide (k ∈ visible)); [|done]. simpl.
  destruct (bool_decide (k ∈ selection));
    [by apply bool_decide_eq_true | by apply bool_decide_eq_false].
Qed.



(** X23: a hot key fires whatever the state of the modifiers it asks
    for: a modifier is only required to be up when the hot key does not ask
    for it.  So a key press that matches also matches with every modifier
    released, and no action without a hot key ever matches. *)
Theorem matchHotKey_never_requires_a_modifier
    (hk : HotKey) (keyCode : Z) (shiftKey altKey ctrlKey : bool) :
  (matchHotKey (Some hk) keyCode shiftKey altKey ctrlKey = true <->
     code hk = keyCode
     /\ (shift hk = Some true \/ shiftKey = false)
     /\ (alt hk = Some true \/ altKey = false)
     /\ (ctrl hk = Some true \/ ctrlKey = false))
  /\ (matchHotKey (Some hk) keyCode shiftKey altKey ctrlKey = true ->
      matchHotKey (Some hk) keyCode false false false = true)
  /\ matchHotKey None keyCode shiftKey altKey ctrlKey = false.
Proof.
  assert (Hmod : forall wanted pressed,
            modifier_matches wanted pressed = true <-> wanted = Some true \/ pressed = false).
  { intros [[|]|] []; simpl; split; auto; intros [? | ?]; done. }
  assert (Hfirst : matchHotKey (Some hk) keyCode shiftKey altKey ctrlKey = true <->
            code hk = keyCode
            /\ (shift hk = Some true \/ shiftKey = false)
            /\ (alt hk = Some true \/ altKey = false)
            /\ (ctrl hk = Some true \/ ctrlKey = false)).
  { unfold matchHotKey. rewrite !andb_true_iff, bool_decide_eq_true, !Hmod. tauto. }
  split; [exact Hfirst|]. split; [|done].
  intros (Hcode & _)%Hfirst. unfold matchHotKey.
  rewrite !andb_true_iff, bool_decide_eq_true, !Hmod. auto.
Qed.

End SelectionFacts.

(** *** The sample table's selection *)










Lemma matchHotKey_never_requires_a_modifier_witness :
  Selection.matchHotKey (Some Sample.shift_delete) 46 true false false = true
  /\ Selection.matchHotKey (Some Sample.shift_delete) 46 false false false = true.
Proof.
  split; [reflexivity|].
  exact (proj1 (proj2 (matchHotKey_never_requires_a_modifier Sample.shift_delete 46
                         true false false)) eq_refl).
Defined.

(** ** The table: sort requests *)

Section ColumnFacts.
Import Columns.

Lemma col_id_determines_column (objects : list Column) a b :
  NoDup (col_id <$> objects) -> a ∈ objects -> b ∈ objects ->
  col_id a = col_id b -> a = b.
Proof.
  induction objects as [|x objects IH]; intros Hnd Ha Hb Heq; [by apply elem_of_nil in Ha|].
  rewrite fmap_cons in Hnd. apply NoDup_cons in Hnd as [Hx Hnd].
  apply elem_of_cons in Ha as [-> | Ha]; apply elem_of_cons in Hb as [-> | Hb].
  - done.
  - exfalso. apply Hx. rewrite Heq. by apply list_elem_of_fmap_2.
  - exfalso. apply Hx. rewrite <- Heq. by apply list_elem_of_fmap_2.
  - by apply IH.
Qed.

Lemma find_column (objects : list Column) a :
  NoDup (col_id <$> objects) -> a ∈ objects ->
  snd <$> list_find (fun b => col_id b = col_id a) objects = Some a.
Proof.
  intros Hnd Ha.
  destruct (list_find (fun b => col_id b = col_id a) objects) as [[i b]|] eqn:Hfind.
  - apply list_find_Some in Hfind as (Hi & Hid & _). simpl. f_equal.
    apply (col_id_determines_column objects); try done.
    by apply list_elem_of_lookup_2 in Hi.
  - apply list_find_None in Hfind. rewrite Forall_forall in Hfind.
    by destruct (Hfind a Ha).
Qed.

(** X24: setSortDirection leaves one column sorted.  With distinct column
    ids, the calls it makes are resets to 'none' followed, last, by the
    requested direction for the requested column; a reset is made for
    exactly the other columns whose state has a direction, and never for
    the requested column. *)
Theorem setSortDirection_resets_the_other_columns
    (objects : list Column) (attributeState : option (gmap string StoredState))
    (mVisibleAttributes : option (list Column))
    (id : string) (direction : Table.SortDirection) :
  NoDup (col_id <$> objects) ->
  exists resets,
    setSortDirection objects attributeState mVisibleAttributes id direction
    = resets ++ [(id, direction)]
    /\ (forall k d, (k, d) ∈ resets -> d = Table.none /\ k <> id)
    /\ forall a, a ∈ objects ->
         ((col_id a, Table.none) ∈ resets <->
          col_id a <> id
          /\ sortDirection (getAttributeState a None attributeState mVisibleAttributes)
             <> Table.none).
Proof.
  intros Hnd. eexists. split; [reflexivity|]. split.
  - intros k d (testId & Hin & Hcmd)%list_elem_of_omap.
    destruct (snd <$> list_find _ objects) as [a|]; [|done]. simpl in Hcmd.
    destruct (decide _) as [[Hne _]|]; [|done]. injection Hcmd as <- <-. done.
  - intros a Ha. rewrite list_elem_of_omap. split.
    + intros (testId & Hin & Hcmd).
      destruct (snd <$> list_find _ objects) as [b|] eqn:Hfind; [|done]. simpl in Hcmd.
      destruct (decide _) as [[Hne Hdir]|]; [|done]. injection Hcmd as ->.
      rewrite (find_column objects a Hnd Ha) in Hfind. injection Hfind as <-. done.
    + intros [Hne Hdir]. exists (col_id a). split; [by apply list_elem_of_fmap_2|].
      rewrite (find_column objects a Hnd Ha). simpl.
      by rewrite decide_True.
Qed.

End ColumnFacts.

(** Sorting by ["y"] while ["x"] and ["z"] are sorted. *)
Lemma setSortDirection_resets_the_other_columns_witness :
  Columns.setSortDirection Sample.three_columns (Some Sample.two_sorted) None "y" Table.asc
  = [("x", Table.none); ("z", Table.none); ("y", Table.asc)]
  /\ exists resets,
       Columns.setSortDirection Sample.three_columns (Some Sample.two_sorted) None
         "y" Table.asc = resets ++ [("y", Table.asc)]
       /\ ("x", Table.none) ∈ resets.
Proof.
  split; [reflexivity|].
  destruct (setSortDirection_resets_the_other_columns Sample.three_columns
              (Some Sample.two_sorted) None "y" Table.asc ltac:(by_evaluation))
    as (resets & Hcall & _ & Hin).
  exists resets. split; [exact Hcall|].
  apply (Hin {| Columns.col_id := "x"; Columns.isDefaultVisible := None;
                Columns.isDefaultSort := None |}); [left|].
  split; [discriminate | vm_compute; discriminate].
Defined.

(** ** The table: which rows are rendered *)

Section VisibilityFacts.
Import Visibility.

(** What every reachable state satisfies. *)
Lemma visibility_invariant (events : list Event) :
  let v := run events in
  (mDelayedVisibilityTimer v = false -> mNextVisibility v = mDelayedVisibility v)
  /\ (forall r, mDelayedVisibility v !! r = Some true -> mNextVisibility v !! r = Some true)
  /\ (mWillSetVisibility v = false -> rowVisibility v = mNextVisibility v).
Proof.
  unfold run. induction events as [|e events IH] using rev_ind; [done|].
  rewrite foldl_app. cbn [foldl]. cbv zeta in IH |- *.
  set (v := foldl step initial events) in *. destruct IH as (Hidle & Hshown & Hframe).
  destruct e as [rowId visible | now | now |]; cbn [step].
  - unfold setRowVisible.
    destruct (visible || negb (mDelayedVisibilityTimer v)) eqn:Hnow.
    + assert (Hcore :
        (mDelayedVisibilityTimer v = false ->
           <[rowId := visible]> (mNextVisibility v)
           = <[rowId := visible]> (mDelayedVisibility v))
        /\ forall r, <[rowId := visible]> (mDelayedVisibility v) !! r = Some true ->
                     <[rowId := visible]> (mNextVisibility v) !! r = Some true).
      { split; [intros Ht; by rewrite Hidle|]. intros r.
        destruct (decide (rowId = r)) as [-> | Hne].
        - by rewrite !lookup_insert_eq.
        - rewrite !lookup_insert_ne by done. apply Hshown. }
      destruct Hcore as [Hc1 Hc2].
      destruct (decide (Some visible <> rowVisibility v !! rowId)) as [|Hsame];
        cbn [triggerUpdateVisibility mDelayedVisibilityTimer mNextVisibility
             mDelayedVisibility mWillSetVisibility rowVisibility];
        (split; [exact Hc1|]); (split; [exact Hc2|]); [done|].
      intros Hw. rewrite Hframe by done. symmetry. apply insert_id.
      rewrite <- Hframe by done. symmetry. by apply dec_stable.
    + cbn [mDelayedVisibilityTimer mNextVisibility mDelayedVisibility
           mWillSetVisibility rowVisibility].
      apply orb_false_iff in Hnow as [-> Htimer%negb_false_iff].
      split; [by rewrite Htimer|]. split; [|done].
      intros r. destruct (decide (rowId = r)) as [-> | Hne].
      * by rewrite lookup_insert_eq.
      * rewrite lookup_insert_ne by done. apply Hshown.
  - cbn [onScroll mDelayedVisibilityTimer mNextVisibility mDelayedVisibility
         mWillSetVisibility rowVisibility]. done.
  - destruct (mDelayedVisibilityTimer v) eqn:Htimer;
      [| split; [intros _; by apply Hidle | by split]].
    unfold postScroll. destruct (decide _);
      cbn [triggerUpdateVisibility mDelayedVisibilityTimer mNextVisibility
           mDelayedVisibility mWillSetVisibility rowVisibility]; done.
  - destruct (mWillSetVisibility v) eqn:Hw;
      [| split; [done | split; [done | intros _; by apply Hframe]]].
    cbn [onFrame mDelayedVisibilityTimer mNextVisibility mDelayedVisibility
         mWillSetVisibility rowVisibility]. done.
Qed.

(** [mDelayedVisibility] holds, for every row, what the row reported
    last. *)
Lemma delayed_visibility_is_the_last_report (events : list Event) (r : string) :
  mDelayedVisibility (run events) !! r = last_report events r.
Proof.
  unfold run, last_report. induction events as [|e events IH] using rev_ind; [done|].
  rewrite !foldl_app. cbn [foldl]. rewrite <- IH.
  set (v := foldl step initial events).
  destruct e as [rowId visible | now | now |]; cbn [step].
  - assert (Hset : mDelayedVisibility (setRowVisible rowId visible v)
                   = <[rowId := visible]> (mDelayedVisibility v)).
    { unfold setRowVisible. destruct (visible || negb (mDelayedVisibilityTimer v)); [|done].
      by destruct (decide _). }
    rewrite Hset. destruct (decide (rowId = r)) as [-> | Hne].
    + by rewrite lookup_insert_eq.
    + by rewrite lookup_insert_ne.
  - done.
  - destruct (mDelayedVisibilityTimer v); [|done].
    unfold postScroll. by destruct (decide _).
  - by destruct (mWillSetVisibility v).
Qed.

(** X25: rows are shown at once and hidden late.  Whatever rows report,
    however the user scrolls and whenever the timer and the frames run,
    mDelayedVisibility holds for every row what the row reported last; a
    row whose last report was "visible" is visible in the visibility to set
    next; and while no scroll timer is pending, the visibility to set next
    is, for every row, what the row reported last. *)
Theorem reported_rows_are_never_hidden (events : list Event) (r : string) :
  let v := run events in
  mDelayedVisibility v !! r = last_report events r
  /\ (last_report events r = Some true -> mNextVisibility v !! r = Some true)
  /\ (mDelayedVisibilityTimer v = false -> mNextVisibility v !! r = last_report events r).
Proof.
  destruct (visibility_invariant events) as (Hidle & Hshown & _).
  pose proof (delayed_visibility_is_the_last_report events r) as Hlast.
  split; [exact Hlast|]. split.
  - intros Hr. apply Hshown. by rewrite Hlast.
  - intros Ht. by rewrite Hidle.
Qed.

(** X26: the rendered visibility never lags unnoticed: in every reachable
    state in which no frame is requested, the visibility of the component
    state is the visibility to set next. *)
Theorem rendered_visibility_is_current (events : list Event) :
  mWillSetVisibility (run events) = false ->
  rowVisibility (run events) = mNextVisibility (run events).
Proof. by destruct (visibility_invariant events) as (_ & _ & Hframe). Qed.

End VisibilityFacts.

(** A row shows up, the user scrolls, the row reports that it left the
    view: it stays visible until the timer finds the scrolling over. *)
Lemma reported_rows_are_never_hidden_witness :
  let scrolling := [Visibility.RowReports "r1" true; Visibility.FrameRuns;
                    Visibility.Scrolled 100; Visibility.RowReports "r1" false] in
  Visibility.last_report [Visibility.RowReports "r1" true] "r1" = Some true
  /\ Visibility.mNextVisibility (Visibility.run [Visibility.RowReports "r1" true]) !! "r1"
     = Some true
  /\ Visibility.last_report scrolling "r1" = Some false
  /\ Visibility.mNextVisibility (Visibility.run scrolling) !! "r1" = Some true
  /\ Visibility.mDelayedVisibilityTimer
       (Visibility.run (scrolling ++ [Visibility.TimerFires 5200])) = false
  /\ Visibility.mNextVisibility
       (Visibility.run (scrolling ++ [Visibility.TimerFires 5200])) !! "r1"
     = Visibility.last_report (scrolling ++ [Visibility.TimerFires 5200]) "r1".
Proof.
  cbv zeta. split; [reflexivity|]. split; [|split; [reflexivity|split; [reflexivity|split]]].
  - exact (proj1 (proj2 (reported_rows_are_never_hidden
                           [Visibility.RowReports "r1" true] "r1")) eq_refl).
  - reflexivity.
  - exact (proj2 (proj2 (reported_rows_are_never_hidden
                    ([Visibility.RowReports "r1" true; Visibility.FrameRuns;
                      Visibility.Scrolled 100; Visibility.RowReports "r1" false]
                     ++ [Visibility.TimerFires 5200]) "r1")) eq_refl).
Defined.

Lemma rendered_visibility_is_current_witness :
  Visibility.rowVisibility
    (Visibility.run [Visibility.RowReports "r1" true; Visibility.FrameRuns]) !! "r1"
  = Some true.
Proof.
  rewrite (rendered_visibility_is_current
             [Visibility.RowReports "r1" true; Visibility.FrameRuns] eq_refl).
  reflexivity.
Defined.

(** ** The table: default column states *)

Section DefaultStateFacts.
Import Columns.

Lemma default_states_lookup (visible : list Column) (k : string) :
  foldl (fun prev attribute =>
           if decide (isDefaultSort attribute = Some true)
           then <[col_id attribute :=
                    {| st_enabled := None; st_sortDirection := Some Table.asc |}]> prev
           else prev) (∅ : gmap string StoredState) visible !! k
  = if decide (Exists (fun b => col_id b = k /\ isDefaultSort b = Some true) visible)
    then Some {| st_enabled := None; st_sortDirection := Some Table.asc |}
    else None.
Proof.
  induction visible as [|b visible IH] using rev_ind.
  - cbn [foldl]. rewrite lookup_empty.
    destruct (decide (Exists _ [])) as [?%Exists_nil|]; done.
  - rewrite foldl_app. cbn [foldl].
    destruct (decide (isDefaultSort b = Some true)) as [Hsort|Hsort].
    + destruct (decide (col_id b = k)) as [<- | Hne].
      * rewrite lookup_insert_eq. rewrite decide_True; [done|].
        apply Exists_app. right. by left.
      * rewrite lookup_insert_ne by done. rewrite IH.
        destruct (decide (Exists _ visible)) as [Hex|Hex].
        -- rewrite decide_True; [done|]. apply Exists_app. by left.
        -- rewrite decide_False; [done|].
           intros [?|Hb%Exists_cons]%Exists_app; [done|].
           destruct Hb as [[? _]|?%Exists_nil]; done.
    + rewrite IH. destruct (decide (Exists _ visible)) as [Hex|Hex].
      * rewrite decide_True; [done|]. apply Exists_app. by left.
      * rewrite decide_False; [done|].
        intros [?|Hb%Exists_cons]%Exists_app; [done|].
        destruct Hb as [[_ ?]|?%Exists_nil]; done.
Qed.

(** X27: the state of a column while nothing is stored.  With no attribute
    state in the props and the visible columns known, getAttributeState
    reports a column enabled unless it is declared invisible by default,
    and sorted ascending exactly when some visible column of the same id
    is a default sort column; otherwise it is not sorted. *)
Theorem unstored_columns_take_their_defaults (attribute : Column)
    (visible : list Column) :
  let attrState := getAttributeState attribute None None (Some visible) in
  enabled attrState = default true (isDefaultVisible attribute)
  /\ (sortDirection attrState = Table.asc <->
      exists b, b ∈ visible /\ col_id b = col_id attribute
                /\ isDefaultSort b = Some true)
  /\ (sortDirection attrState <> Table.asc -> sortDirection attrState = Table.none).
Proof.
  cbv zeta. unfold getAttributeState, getAttributeStates.
  cbn [default enabled sortDirection]. unfold id. rewrite default_states_lookup.
  destruct (decide (Exists _ visible)) as [Hex|Hex]; cbn.
  - split; [done|]. split; [|done]. split; [|done].
    intros _. apply Exists_exists in Hex as (b & ? & ? & ?). by exists b.
  - split; [done|]. split; [|done]. split; [done|].
    intros (b & ? & ? & ?). exfalso. apply Hex. apply Exists_exists. by exists b.
Qed.

End DefaultStateFacts.

Lemma unstored_columns_take_their_defaults_witness :
  Columns.sortDirection
    (Columns.getAttributeState Sample.default_sorted None None
       (Some (Sample.three_columns ++ [Sample.default_sorted])))
  = Table.asc.
Proof.
  apply (proj2 (proj1 (proj2 (unstored_columns_take_their_defaults
                                Sample.default_sorted
                                (Sample.three_columns ++ [Sample.default_sorted]))))).
  exists Sample.default_sorted. split; [|done].
  apply elem_of_app. right. left.
Defined.
